(** * Campus navigation: the network model and its BFS / DFS traversals

    A shallow embedding of [app.py]: the dataclasses [Node] and [Edge], the
    class [Graph] with its mutating operations, and the traversal methods
    [_bfs], [_dfs], [_reconstruct_path] of [App], followed by the properties
    of the specification that concern them.

    Conventions of the embedding.
    - A Python [str] is a [string]; its characters are code points below 256
      and strings compare character by character, as Python compares them.
    - A Python [float] is a primitive [float] (IEEE 754 binary64).
    - A Python [dict] is an insertion-ordered association list ([Dict.t]);
      the order of the entries is the order in which Python iterates.
    - A [Set[str]] is a list without repetition ([ListSet.set]).
    - A raised exception is a value [Raise e]; the mutating operations of
      [Graph] return the state the object is left in next to their outcome,
      so a mutation that happened before a [raise] stays visible.
    - The [while] loops and the recursion of [_dfs] take a fuel argument;
      [OutOfFuel] is returned when it runs out.  The traversals supply a
      fuel computed from the graph and are proved never to exhaust it.
      CPython's recursion limit is an interpreter resource bound and is not
      modelled. *)

From Stdlib Require Import List String Ascii Bool Arith Lia ZArith ListSet Sorted.
From Stdlib Require Import Floats Permutation OrderedTypeEx.
Import ListNotations.
Local Open Scope string_scope.
Local Open Scope list_scope.

(** ** Outcomes of a call *)

Inductive exn : Type :=
| ValueError (msg : string)
| KeyError.

Inductive outcome (A : Type) : Type :=
| Ret (a : A)
| Raise (e : exn)
| OutOfFuel.

Arguments Ret {A} a.
Arguments Raise {A} e.
Arguments OutOfFuel {A}.

Definition bind {A B : Type} (m : outcome A) (k : A -> outcome B) : outcome B :=
  match m with
  | Ret a => k a
  | Raise e => Raise e
  | OutOfFuel => OutOfFuel
  end.

Notation "x <- m ;; k" := (bind m (fun x => k))
  (at level 61, m at next level, right associativity).

(** ** Hashable keys *)

Class Key (K : Type) : Type := {
  keqb : K -> K -> bool;
  keqb_spec : forall a b : K, reflect (a = b) (keqb a b)
}.

#[export] Instance Key_string : Key string :=
  {| keqb := String.eqb; keqb_spec := String.eqb_spec |}.

Definition pair_eqb (p q : string * string) : bool :=
  String.eqb (fst p) (fst q) && String.eqb (snd p) (snd q).

Lemma pair_eqb_spec (p q : string * string) : reflect (p = q) (pair_eqb p q).
Proof.
  destruct p as [a b], q as [c d]; unfold pair_eqb; cbn.
  destruct (String.eqb_spec a c), (String.eqb_spec b d); cbn;
    constructor; congruence.
Qed.

#[export] Instance Key_pair : Key (string * string) :=
  {| keqb := pair_eqb; keqb_spec := pair_eqb_spec |}.

(** ** Python dictionaries: insertion-ordered association lists *)

Module Dict.
Section Ops.
Context {K V : Type} `{Key K}.

Definition t : Type := list (K * V).

(** [d.get(k)] *)
Fixpoint get (d : t) (k : K) : option V :=
match d with
| [] => None
| (k', v) :: d' => if keqb k k' then Some v else get d' k
end.

(** [k in d] *)
Definition mem (k : K) (d : t) : bool :=
match get d k with Some _ => true | None => false end.

(** [d[k] = v]: an existing entry keeps its place, a new one goes last. *)
Fixpoint set (d : t) (k : K) (v : V) : t :=
match d with
| [] => [(k, v)]
| (k', v') :: d' =>
    if keqb k k' then (k', v) :: d' else (k', v') :: set d' k v
end.

(** [del d[k]]: [None] stands for the [KeyError] of an absent key. *)
Fixpoint del (d : t) (k : K) : option t :=
match d with
| [] => None
| (k', v') :: d' =>
    if keqb k k' then Some d'
    else match del d' k with
         | Some d'' => Some ((k', v') :: d'')
         | None => None
         end
end.

(** [d.keys()], in iteration order. *)
Definition keys (d : t) : list K := map fst d.

(** What every Python dictionary satisfies: no key occurs twice. *)
Definition wf (d : t) : Prop := NoDup (keys d).
End Ops.
Arguments t K V : clear implicits.
End Dict.

(** ** The dataclasses *)

Module Node.
Record t : Type := mk {
  name : string;
  x : Z;
  y : Z;
  weight : float;
  canvas_id : option Z;
  label_id : option Z
}.
End Node.

(** [tuple(sorted((u, v)))] *)
Definition sorted_pair (u v : string) : string * string :=
  if String.ltb v u then (v, u) else (u, v).

Module Edge.
Record t : Type := mk {
  u : string;
  v : string;
  distance : float;
  time : float;
  accessible : bool;
  closed : bool;
  line_id : option Z;
  label_id : option Z
}.

Definition key (e : t) : string * string := sorted_pair (u e) (v e).
End Edge.

(** [str.isspace] on one character (code points below 256). *)
Definition isspace (c : ascii) : bool :=
  let n := nat_of_ascii c in
  (((9 <=? n) && (n <=? 13)) || ((28 <=? n) && (n <=? 32))
   || (n =? 133) || (n =? 160))%nat.

(** [not name or name.strip() == ""] *)
Definition is_blank (name : string) : bool :=
  forallb isspace (list_ascii_of_string name).

(** [name in key] for a key that is a pair. *)
Definition in_key (name : string) (key : string * string) : bool :=
  String.eqb name (fst key) || String.eqb name (snd key).

(** ** class Graph *)

Module Graph.
Record t : Type := mk {
  nodes : Dict.t string Node.t;
  edges : Dict.t (string * string) Edge.t
}.

(** [Graph()] *)
Definition empty : t := mk [] [].

Definition add_node (g : t) (name : string) (x y : Z) : outcome unit * t :=
  if is_blank name then
    (Raise (ValueError "Building name cannot be empty."), g)
  else if Dict.mem name (nodes g) then
    (Raise (ValueError ("Duplicate building name '" ++ name ++ "'.")%string), g)
  else
    (Ret tt,
     mk (Dict.set (nodes g) name (Node.mk name x y 1%float None None))
        (edges g)).

(** The second loop of [delete_node]: [for key in edges_to_delete:
    del self.edges[key]], one deletion after the other on the object. *)
Fixpoint delete_keys (ks : list (string * string)) (g : t)
  : outcome unit * t :=
  match ks with
  | [] => (Ret tt, g)
  | k :: ks' =>
      match Dict.del (edges g) k with
      | None => (Raise KeyError, g)
      | Some es => delete_keys ks' (mk (nodes g) es)
      end
  end.

Definition delete_node (g : t) (name : string) : outcome nat * t :=
  if negb (Dict.mem name (nodes g)) then
    (Raise (ValueError ("Building '" ++ name ++ "' does not exist.")%string), g)
  else
    let edges_to_delete := filter (in_key name) (Dict.keys (edges g)) in
    match delete_keys edges_to_delete g with
    | (Ret _, g1) =>
        match Dict.del (nodes g1) name with
        | None => (Raise KeyError, g1)
        | Some ns => (Ret (List.length edges_to_delete), mk ns (edges g1))
        end
    | (Raise e, g1) => (Raise e, g1)
    | (OutOfFuel, g1) => (OutOfFuel, g1)
    end.

Definition add_edge (g : t) (u v : string) (distance time : float)
    (accessible : bool) : outcome unit * t :=
  if String.eqb u v then
    (Raise (ValueError "Cannot connect a building to itself."), g)
  else if negb (Dict.mem u (nodes g)) || negb (Dict.mem v (nodes g)) then
    (Raise (ValueError "Both buildings must exist."), g)
  else
    let key := sorted_pair u v in
    if Dict.mem key (edges g) then
      (Raise (ValueError ("An edge between '" ++ u ++ "' and '" ++ v
                          ++ "' already exists.")%string), g)
    else if (distance <=? 0)%float || (time <=? 0)%float then
      (Raise (ValueError "Distance and time must be positive numbers."), g)
    else
      (Ret tt,
       mk (nodes g)
          (Dict.set (edges g) key
             (Edge.mk u v distance time accessible false None None))).

Definition delete_edge (g : t) (u v : string) : outcome unit * t :=
  let key := sorted_pair u v in
  if negb (Dict.mem key (edges g)) then
    (Raise (ValueError ("No connection exists between '" ++ u ++ "' and '"
                        ++ v ++ "'.")%string), g)
  else
    match Dict.del (edges g) key with
    | None => (Raise KeyError, g)
    | Some es => (Ret tt, mk (nodes g) es)
    end.

(** The loop of [neighbors] over [self.edges.items()]. *)
Fixpoint scan_edges (es : Dict.t (string * string) Edge.t) (name : string)
    (accessible_only : bool) : list string :=
  match es with
  | [] => []
  | ((a, b), e) :: es' =>
      let rest := scan_edges es' name accessible_only in
      if Edge.closed e then rest
      else if accessible_only && negb (Edge.accessible e) then rest
      else if String.eqb a name then b :: rest
      else if String.eqb b name then a :: rest
      else rest
  end.

Definition neighbors (g : t) (name : string) (accessible_only : bool)
  : list string :=
  scan_edges (edges g) name accessible_only.

Definition get_edge (g : t) (a b : string) : option Edge.t :=
  Dict.get (edges g) (sorted_pair a b).

Definition all_edge_keys (g : t) : list (string * string) :=
  Dict.keys (edges g).
End Graph.

(** ** The traversals of class App *)

Module App.

(** The fuel the traversals run their loops with: one more than the number
    of endpoints the edge dictionary holds. *)
Definition fuel_of (g : Graph.t) : nat := S (2 * List.length (Graph.edges g)).

(** [not e or e.closed or (accessible_only and not e.accessible)] *)
Definition blocked (accessible_only : bool) (e : option Edge.t) : bool :=
  match e with
  | None => true
  | Some e => Edge.closed e || (accessible_only && negb (Edge.accessible e))
  end.

(** The [while parent[cur] is not None] loop of [_reconstruct_path]. *)
Fixpoint climb (fuel : nat) (parent : Dict.t string (option string))
    (cur : string) (path : list string) : outcome (list string) :=
  match Dict.get parent cur with
  | None => Raise KeyError
  | Some None => Ret path
  | Some (Some p) =>
      match fuel with
      | O => OutOfFuel
      | S fuel' => climb fuel' parent p (path ++ [p])
      end
  end.

Definition _reconstruct_path (parent : Dict.t string (option string))
    (start goal : string) : outcome (list string) :=
  if negb (Dict.mem goal parent) then Ret []
  else
    path <- climb (List.length parent) parent goal [goal] ;;
    let path := rev path in
    match path with
    | first :: _ => if String.eqb first start then Ret path else Ret []
    | [] => Ret []
    end.

Module Bfs.
(** The local variables of [_bfs]. *)
Record vars : Type := mk {
  q : list string;
  parent : Dict.t string (option string);
  visited : set string;
  visited_order : list string
}.

(** [for w in self.graph.neighbors(u, accessible_only): ...] *)
Fixpoint scan (g : Graph.t) (accessible_only : bool) (u : string)
    (ws : list string) (s : vars) : vars :=
  match ws with
  | [] => s
  | w :: ws' =>
      if blocked accessible_only (Graph.get_edge g u w) then
        scan g accessible_only u ws' s
      else if set_mem string_dec w (visited s) then
        scan g accessible_only u ws' s
      else
        scan g accessible_only u ws'
          (mk (q s ++ [w])
              (Dict.set (parent s) w (Some u))
              (set_add string_dec w (visited s))
              (visited_order s))
  end.

(** [while q: ...] *)
Fixpoint loop (fuel : nat) (g : Graph.t) (goal : string)
    (accessible_only : bool) (s : vars) : outcome vars :=
  match q s with
  | [] => Ret s
  | u :: q' =>
      match fuel with
      | O => OutOfFuel
      | S fuel' =>
          let s1 := mk q' (parent s) (visited s) (visited_order s ++ [u]) in
          if String.eqb u goal then Ret s1
          else
            loop fuel' g goal accessible_only
              (scan g accessible_only u
                 (Graph.neighbors g u accessible_only) s1)
      end
  end.

Definition init (start : string) : vars :=
  mk [start] [(start, None)] (set_add string_dec start (empty_set string)) [].
End Bfs.

Definition _bfs (g : Graph.t) (start goal : string) (accessible_only : bool)
  : outcome (list string * list string) :=
  s <- Bfs.loop (fuel_of g) g goal accessible_only (Bfs.init start) ;;
  path <- _reconstruct_path (Bfs.parent s) start goal ;;
  Ret (Bfs.visited_order s, path).

Module Dfs.
(** The variables [rec] shares with [_dfs]. *)
Record vars : Type := mk {
  visited : set string;
  visited_order : list string;
  parent : Dict.t string (option string);
  found : bool
}.

Section Scan.
(** The recursive call, one level down. *)
Variable rec : string -> vars -> outcome vars.

(** [for w in self.graph.neighbors(u, accessible_only): ...] *)
Fixpoint scan (g : Graph.t) (accessible_only : bool) (u : string)
    (ws : list string) (s : vars) : outcome vars :=
  match ws with
  | [] => Ret s
  | w :: ws' =>
      if blocked accessible_only (Graph.get_edge g u w) then
        scan g accessible_only u ws' s
      else if set_mem string_dec w (visited s) then
        scan g accessible_only u ws' s
      else
        s' <- rec w (mk (visited s) (visited_order s)
                        (Dict.set (parent s) w (Some u)) (found s)) ;;
        scan g accessible_only u ws' s'
  end.
End Scan.

Fixpoint rec (fuel : nat) (g : Graph.t) (goal : string)
    (accessible_only : bool) (u : string) (s : vars) : outcome vars :=
  if found s then Ret s
  else
    match fuel with
    | O => OutOfFuel
    | S fuel' =>
        let s1 := mk (set_add string_dec u (visited s))
                     (visited_order s ++ [u]) (parent s) (found s) in
        if String.eqb u goal then
          Ret (mk (visited s1) (visited_order s1) (parent s1) true)
        else
          scan (rec fuel' g goal accessible_only) g accessible_only u
            (Graph.neighbors g u accessible_only) s1
    end.

Definition init (start : string) : vars :=
  mk (empty_set string) [] [(start, None)] false.
End Dfs.

Definition _dfs (g : Graph.t) (start goal : string) (accessible_only : bool)
  : outcome (list string * list string) :=
  s <- Dfs.rec (fuel_of g) g goal accessible_only start (Dfs.init start) ;;
  path <- (if Dfs.found s then _reconstruct_path (Dfs.parent s) start goal
           else Ret []) ;;
  Ret (Dfs.visited_order s, path).

(** The totals [_print_result] accumulates over [range(len(path) - 1)]. *)
Fixpoint totals (g : Graph.t) (path : list string)
    (total_dist total_time : float) : float * float :=
  match path with
  | a :: (b :: _) as rest =>
      match Graph.get_edge g a b with
      | Some e =>
          totals g rest (total_dist + Edge.distance e)%float
                        (total_time + Edge.time e)%float
      | None => totals g rest total_dist total_time
      end
  | _ => (total_dist, total_time)
  end.

(** *** Handlers of [App] that act on the model and on the animation *)

(** The order of Python on pairs of strings: by the first component, then
    by the second. *)
Definition key_ltb (p q : string * string) : bool :=
  String.ltb (fst p) (fst q)
  || (String.eqb (fst p) (fst q) && String.ltb (snd p) (snd q)).

Fixpoint insert_key (k : string * string) (l : list (string * string))
  : list (string * string) :=
  match l with
  | [] => [k]
  | k' :: l' => if key_ltb k' k then k' :: insert_key k l' else k :: l
  end.

(** [sorted(self.graph.edges.keys())] *)
Definition sorted_keys (l : list (string * string)) : list (string * string) :=
  fold_right insert_key [] l.

(** [e.closed = not e.closed] *)
Definition flip_closed (e : Edge.t) : Edge.t :=
  Edge.mk (Edge.u e) (Edge.v e) (Edge.distance e) (Edge.time e)
    (Edge.accessible e) (negb (Edge.closed e)) (Edge.line_id e)
    (Edge.label_id e).

(** [e.accessible = not e.accessible] *)
Definition flip_accessible (e : Edge.t) : Edge.t :=
  Edge.mk (Edge.u e) (Edge.v e) (Edge.distance e) (Edge.time e)
    (negb (Edge.accessible e)) (Edge.closed e) (Edge.line_id e)
    (Edge.label_id e).

(** What [_toggle_edge_closed] and [_toggle_edge_accessible] do to the
    model, [sel] being the selection of the edge list box: the edge at
    index [sel[0]] of the sorted keys is changed in place.  The message box
    shown on an empty selection and the redrawing that follows the change
    are presentation and are not modelled. *)
Definition toggle_selected (change : Edge.t -> Edge.t) (g : Graph.t)
    (sel : list nat) : outcome unit * Graph.t :=
  match sel with
  | [] => (Ret tt, g)
  | idx :: _ =>
      let keys := sorted_keys (Dict.keys (Graph.edges g)) in
      match nth_error keys idx with
      | None => (Ret tt, g)
      | Some key =>
          match Dict.get (Graph.edges g) key with
          | None => (Raise KeyError, g)
          | Some e =>
              (Ret tt,
               Graph.mk (Graph.nodes g) (Dict.set (Graph.edges g) key (change e)))
          end
      end
  end.

Definition _toggle_edge_closed (g : Graph.t) (sel : list nat)
  : outcome unit * Graph.t :=
  toggle_selected flip_closed g sel.

Definition _toggle_edge_accessible (g : Graph.t) (sel : list nat)
  : outcome unit * Graph.t :=
  toggle_selected flip_accessible g sel.

(** The animation fields of [App]. *)
Record anim : Type := mk_anim {
  anim_steps : list (string * string);
  anim_index : nat;
  active_path : list string;
  animating : bool
}.

(** [[(path[i], path[i+1]) for i in range(len(path) - 1)]] *)
Fixpoint steps_of (path : list string) : list (string * string) :=
  match path with
  | a :: (b :: _) as rest => (a, b) :: steps_of rest
  | _ => []
  end.

(** The loop of [_run_search] that checks the path before animating: it
    gives up, with the dialog "Invalid path detected!", when some
    [get_edge(path[i], path[i+1])] finds nothing. *)
Fixpoint path_edges_exist (g : Graph.t) (path : list string) : bool :=
  match path with
  | a :: (b :: _) as rest =>
      match Graph.get_edge g a b with
      | Some _ => path_edges_exist g rest
      | None => false
      end
  | _ => true
  end.

(** The four assignments by which [_run_search] sets the animation up. *)
Definition start_animation (path : list string) : anim :=
  mk_anim (steps_of path) 0 path true.

(** [_animate_step]: the result tells whether the step asked to be called
    again ([self.after(450, self._animate_step)]).  The canvas calls are
    not modelled; the two lookups in [self.graph.nodes] are. *)
Definition _animate_step (g : Graph.t) (s : anim) : outcome bool * anim :=
  match nth_error (anim_steps s) (anim_index s) with
  | None =>
      (Ret false, mk_anim (anim_steps s) (anim_index s) (active_path s) false)
  | Some (a, b) =>
      let next := mk_anim (anim_steps s) (S (anim_index s)) (active_path s)
                    (animating s) in
      match Graph.get_edge g a b with
      | None => (Ret true, next)
      | Some _ =>
          match Dict.get (Graph.nodes g) a, Dict.get (Graph.nodes g) b with
          | Some _, Some _ => (Ret true, next)
          | _, _ => (Raise KeyError, s)
          end
      end
  end.

(** The chain of timer callbacks: [_animate_step] is called again for as
    long as it asks to be. *)
Fixpoint playback (fuel : nat) (g : Graph.t) (s : anim) : outcome unit * anim :=
  match fuel with
  | O => (OutOfFuel, s)
  | S fuel' =>
      match _animate_step g s with
      | (Ret true, s') => playback fuel' g s'
      | (Ret false, s') => (Ret tt, s')
      | (Raise e, s') => (Raise e, s')
      | (OutOfFuel, s') => (OutOfFuel, s')
      end
  end.

(** [_clear_highlights], without the redrawing. *)
Definition _clear_highlights (s : anim) : anim := mk_anim [] 0 [] false.

End App.

(** ** A fixture: the scenario of the specification *)

Definition run {A : Type} (g : Graph.t) (op : Graph.t -> outcome A * Graph.t)
  : Graph.t := snd (op g).

Definition fixture : Graph.t :=
  let g := Graph.empty in
  let g := run g (fun g => Graph.add_node g "A" 0 0) in
  let g := run g (fun g => Graph.add_node g "B" 10 0) in
  let g := run g (fun g => Graph.add_node g "C" 10 10) in
  let g := run g (fun g => Graph.add_node g "D" 20 10) in
  let g := run g (fun g => Graph.add_edge g "A" "B" 100 1 true) in
  let g := run g (fun g => Graph.add_edge g "B" "C" 100 1 true) in
  let g := run g (fun g => Graph.add_edge g "A" "C" 500 5 true) in
  let g := run g (fun g => Graph.add_edge g "C" "D" 50 1 false) in
  g.

(** Four buildings joined in a diamond, S-A-T and S-B-T; the two graphs
    hold the same pathways, inserted in two different orders. *)
Definition diamond_ab : Graph.t :=
  let g := Graph.empty in
  let g := run g (fun g => Graph.add_node g "S" 0 0) in
  let g := run g (fun g => Graph.add_node g "A" 10 0) in
  let g := run g (fun g => Graph.add_node g "B" 0 10) in
  let g := run g (fun g => Graph.add_node g "T" 10 10) in
  let g := run g (fun g => Graph.add_edge g "S" "A" 1 1 true) in
  let g := run g (fun g => Graph.add_edge g "S" "B" 1 1 true) in
  let g := run g (fun g => Graph.add_edge g "A" "T" 1 1 true) in
  let g := run g (fun g => Graph.add_edge g "B" "T" 1 1 true) in
  g.

Definition diamond_ba : Graph.t :=
  let g := Graph.empty in
  let g := run g (fun g => Graph.add_node g "S" 0 0) in
  let g := run g (fun g => Graph.add_node g "A" 10 0) in
  let g := run g (fun g => Graph.add_node g "B" 0 10) in
  let g := run g (fun g => Graph.add_node g "T" 10 10) in
  let g := run g (fun g => Graph.add_edge g "S" "B" 1 1 true) in
  let g := run g (fun g => Graph.add_edge g "S" "A" 1 1 true) in
  let g := run g (fun g => Graph.add_edge g "A" "T" 1 1 true) in
  let g := run g (fun g => Graph.add_edge g "B" "T" 1 1 true) in
  g.

(** ** Vocabulary of the properties *)

(** A call fails: it raises. *)
Definition fails {A : Type} (r : outcome A * Graph.t) : Prop :=
  exists e, fst r = Raise e.

(** An edge joins [a] and [b], it is not closed, and it is accessible when
    only accessible edges are wanted. *)
Definition traversable (g : Graph.t) (accessible_only : bool) (a b : string)
  : Prop :=
  exists e, Graph.get_edge g a b = Some e
            /\ Edge.closed e = false
            /\ (accessible_only = true -> Edge.accessible e = true).

(** Every consecutive pair of [p] is related by [R]. *)
Fixpoint chain (R : string -> string -> Prop) (p : list string) : Prop :=
  match p with
  | a :: (b :: _) as rest => R a b /\ chain R rest
  | _ => True
  end.

(** [p] is a path from [start] to [goal] over traversable edges: it starts
    with [start], ends with [goal], and steps along traversable edges. *)
Definition route (g : Graph.t) (accessible_only : bool) (start goal : string)
    (p : list string) : Prop :=
  hd_error p = Some start
  /\ last p start = goal
  /\ chain (traversable g accessible_only) p.

Definition reachable (g : Graph.t) (accessible_only : bool)
    (start x : string) : Prop :=
  exists p, route g accessible_only start x p.

(** The number of edges of a path given by its nodes. *)
Definition hops (p : list string) : nat := List.length p - 1.

(** The goal, if it occurs in a visited order, is its last element. *)
Definition stops_at (goal : string) (order : list string) : Prop :=
  forall pre post, order = pre ++ goal :: post -> post = [].

(** The names the edge dictionary mentions, in iteration order. *)
Definition endpoints (g : Graph.t) : list string :=
  flat_map (fun kv => [fst (fst kv); snd (fst kv)]) (Graph.edges g).

(** What [neighbors] appends for one entry of the edge dictionary. *)
Definition neighbor_of (name : string) (accessible_only : bool)
    (kv : (string * string) * Edge.t) : list string :=
  Graph.scan_edges [kv] name accessible_only.

(** The chain of parents from [x] up to [start], read from [start] down. *)
Inductive lineage (parent : Dict.t string (option string)) (start : string)
  : string -> list string -> Prop :=
| lineage_root :
    Dict.get parent start = Some None ->
    lineage parent start start [start]
| lineage_step (x p : string) (l : list string) :
    Dict.get parent x = Some (Some p) ->
    lineage parent start p l ->
    lineage parent start x (l ++ [x]).

(** ** Invariants of the traversals *)

Section Invariants.
Variables (g : Graph.t) (start goal : string) (acc : bool).

(** [l] is the recorded way from [start] to [x]: it follows the parent
    entries, runs over traversable edges, stays inside [V] and repeats no
    node. *)
Definition grounded (P : Dict.t string (option string)) (V : list string)
    (x : string) (l : list string) : Prop :=
  lineage P start x l
  /\ route g acc start x l
  /\ incl l V
  /\ NoDup l.

(** What holds of the variables of [_bfs] each time the [while] test is
    evaluated; [d] gives the depth at which a node was discovered. *)
Record bfs_inv (d : string -> nat) (s : App.Bfs.vars) : Prop := {
  bi_split : forall x,
    In x (App.Bfs.visited s)
    <-> In x (App.Bfs.visited_order s ++ App.Bfs.q s);
  bi_nodup : NoDup (App.Bfs.visited_order s ++ App.Bfs.q s);
  bi_head : exists r, App.Bfs.visited_order s ++ App.Bfs.q s = start :: r;
  bi_keys : forall x,
    ~ In x (App.Bfs.visited s) -> Dict.get (App.Bfs.parent s) x = None;
  bi_tree : forall x,
    In x (App.Bfs.visited s) ->
    exists l, grounded (App.Bfs.parent s) (App.Bfs.visited s) x l
              /\ List.length l = S (d x);
  bi_sorted : StronglySorted (fun x y => d x <= d y) (App.Bfs.q s);
  bi_span : forall x y,
    In x (App.Bfs.q s) -> In y (App.Bfs.q s) -> d y <= S (d x);
  bi_done_le : forall x y,
    In x (App.Bfs.visited_order s) -> In y (App.Bfs.q s) -> d x <= d y;
  bi_expanded : forall x y,
    In x (App.Bfs.visited_order s) -> traversable g acc x y ->
    In y (App.Bfs.visited s) /\ d y <= S (d x);
  bi_goal : ~ In goal (App.Bfs.visited_order s);
  bi_univ : incl (App.Bfs.visited s) (start :: endpoints g);
  bi_start : d start = 0
}.

(** How the [while] loop of [_bfs] is left: with the queue empty, or at the
    [break], the goal just taken from the queue of a state [s0]. *)
Inductive bfs_exit (s' : App.Bfs.vars) : Prop :=
| bfs_exhausted (d : string -> nat) :
    bfs_inv d s' -> App.Bfs.q s' = [] -> bfs_exit s'
| bfs_break (d : string -> nat) (s0 : App.Bfs.vars) (rest : list string) :
    bfs_inv d s0 ->
    App.Bfs.q s0 = goal :: rest ->
    s' = App.Bfs.mk rest (App.Bfs.parent s0) (App.Bfs.visited s0)
           (App.Bfs.visited_order s0 ++ [goal]) ->
    bfs_exit s'.

(** What holds of the variables shared by [_dfs] and [rec] between two
    steps of the recursion. *)
Record dfs_inv (s : App.Dfs.vars) : Prop := {
  di_same : forall x,
    In x (App.Dfs.visited s) <-> In x (App.Dfs.visited_order s);
  di_nodup : NoDup (App.Dfs.visited_order s);
  di_head : App.Dfs.visited_order s = []
            \/ exists r, App.Dfs.visited_order s = start :: r;
  di_tree : forall x,
    In x (App.Dfs.visited s) ->
    exists l, grounded (App.Dfs.parent s) (App.Dfs.visited s) x l;
  di_found : if App.Dfs.found s
             then exists pre, App.Dfs.visited_order s = pre ++ [goal]
             else ~ In goal (App.Dfs.visited_order s);
  di_univ : incl (App.Dfs.visited s) (start :: endpoints g)
}.

(** What [rec(u)] may assume when nothing has been found yet: [u] is new,
    and its parent entry continues a recorded way from [start]. *)
Definition dfs_pre (u : string) (s : App.Dfs.vars) : Prop :=
  ~ In u (App.Dfs.visited s)
  /\ In u (start :: endpoints g)
  /\ (App.Dfs.visited_order s = [] -> u = start)
  /\ exists l0,
       lineage (App.Dfs.parent s) start u (l0 ++ [u])
       /\ route g acc start u (l0 ++ [u])
       /\ incl l0 (App.Dfs.visited s)
       /\ NoDup l0.

(** Every node visited between [s] and [s'] has all its traversable
    neighbors visited in [s']. *)
Definition dfs_closed (s s' : App.Dfs.vars) : Prop :=
  forall x, In x (App.Dfs.visited s') -> ~ In x (App.Dfs.visited s) ->
  forall y, traversable g acc x y -> In y (App.Dfs.visited s').

(** The visited order only grows, and not at all once the goal is found. *)
Definition dfs_grows (s s' : App.Dfs.vars) : Prop :=
  (exists ext, App.Dfs.visited_order s' = App.Dfs.visited_order s ++ ext)
  /\ (App.Dfs.found s = true ->
      App.Dfs.found s' = true
      /\ App.Dfs.visited_order s' = App.Dfs.visited_order s).

(** The contract of one call of [rec], for a recursion that may still go
    [n] levels down. *)
Definition visit_ok (n : nat)
    (visit : string -> App.Dfs.vars -> outcome App.Dfs.vars) : Prop :=
  forall u s,
    dfs_inv s ->
    (App.Dfs.found s = false -> dfs_pre u s) ->
    App.fuel_of g <= n + List.length (App.Dfs.visited_order s) ->
    exists s',
      visit u s = Ret s'
      /\ dfs_inv s'
      /\ dfs_grows s s'
      /\ (App.Dfs.found s = false -> In u (App.Dfs.visited s'))
      /\ (App.Dfs.found s' = false -> dfs_closed s s').

End Invariants.

(** ** What the operations of Graph maintain *)

(** An entry of the node dictionary as [add_node] writes it. *)
Definition node_ok (kv : string * Node.t) : Prop :=
  Node.name (snd kv) = fst kv /\ is_blank (fst kv) = false.

(** An entry of the edge dictionary as [add_edge] writes it: the key is a
    strictly ordered pair, it is the key of the stored edge, both ends are
    nodes, and neither weight is [<= 0]. *)
Definition edge_ok (nodes : Dict.t string Node.t)
    (kv : (string * string) * Edge.t) : Prop :=
  String.ltb (fst (fst kv)) (snd (fst kv)) = true
  /\ Edge.key (snd kv) = fst kv
  /\ Dict.mem (fst (fst kv)) nodes = true
  /\ Dict.mem (snd (fst kv)) nodes = true
  /\ (Edge.distance (snd kv) <=? 0)%float = false
  /\ (Edge.time (snd kv) <=? 0)%float = false.

Definition graph_ok (g : Graph.t) : Prop :=
  Dict.wf (Graph.nodes g)
  /\ Dict.wf (Graph.edges g)
  /\ Forall node_ok (Graph.nodes g)
  /\ Forall (edge_ok (Graph.nodes g)) (Graph.edges g).

(** An edge the filter of [neighbors] lets through. *)
Definition passes (acc : bool) (e : Edge.t) : Prop :=
  Edge.closed e = false /\ (acc = true -> Edge.accessible e = true).

(** [x] is no farther from [start] than [y], counted in edges: every path
    to [y] is matched by a path to [x] that is not longer. *)
Definition closer (g : Graph.t) (acc : bool) (start x y : string) : Prop :=
  forall p, route g acc start y p ->
  exists p', route g acc start x p' /\ List.length p' <= List.length p.

(** Every parent recorded by [_bfs] has been taken from the queue. *)
Definition parents_dequeued (s : App.Bfs.vars) : Prop :=
  forall x p, Dict.get (App.Bfs.parent s) x = Some (Some p) ->
              In p (App.Bfs.visited_order s).

(** The walk of [_reconstruct_path] up the parent entries: from [x] to an
    entry that holds [None], read from [x] up. *)
Inductive ascent (parent : Dict.t string (option string))
  : string -> list string -> Prop :=
| ascent_top (x : string) :
    Dict.get parent x = Some None -> ascent parent x [x]
| ascent_step (x p : string) (m : list string) :
    Dict.get parent x = Some (Some p) ->
    ascent parent p m ->
    ascent parent x (x :: m).

(** [p] does not come after [q] in the order of the sorted keys. *)
Definition key_le (p q : string * string) : Prop := App.key_ltb q p = false.

(** What a toggle of the edge list does: [toggle] is the handler and
    [change] what it does to the selected edge. *)
Definition toggle_spec
    (toggle : Graph.t -> list nat -> outcome unit * Graph.t)
    (change : Edge.t -> Edge.t) (g : Graph.t) (sel : list nat) : Prop :=
  let keys := App.sorted_keys (Dict.keys (Graph.edges g)) in
  let g' := snd (toggle g sel) in
  fst (toggle g sel) = Ret tt
  /\ Graph.nodes g' = Graph.nodes g
  /\ Dict.keys (Graph.edges g') = Dict.keys (Graph.edges g)
  /\ (match sel with
      | [] => g' = g
      | idx :: _ =>
          match nth_error keys idx with
          | None => g' = g
          | Some key =>
              Dict.get (Graph.edges g') key
              = option_map change (Dict.get (Graph.edges g) key)
              /\ forall k, k <> key ->
                   Dict.get (Graph.edges g') k = Dict.get (Graph.edges g) k
          end
      end)
  /\ snd (toggle g' sel) = g
  /\ (graph_ok g -> graph_ok g').

(** What [_run_search] finds in a path returned by a traversal. *)
Definition animatable (g : Graph.t) (acc : bool) (start goal : string)
    (path : list string) : Prop :=
  App.path_edges_exist g path = true
  /\ List.length (App.steps_of path) = hops path
  /\ map fst (App.steps_of path) = removelast path
  /\ map snd (App.steps_of path) = tl path
  /\ (forall x y, In (x, y) (App.steps_of path) -> traversable g acc x y)
  /\ (path <> [] -> start <> goal ->
      hd_error (map fst (App.steps_of path)) = Some start
      /\ last (map snd (App.steps_of path)) start = goal).

(** ** Dictionaries *)

Section DictFacts.
Context {K V : Type} `{Key K}.
Implicit Types (d : Dict.t K V) (k : K) (v : V).

Lemma keqb_refl k : keqb k k = true.
Proof. destruct (keqb_spec k k); congruence. Qed.

Lemma keqb_neq k k' : k <> k' -> keqb k k' = false.
Proof. intros Hn; destruct (keqb_spec k k'); congruence. Qed.

Lemma get_none_iff d k : Dict.get d k = None <-> ~ In k (Dict.keys d).
Proof.
  induction d as [|[k' v'] d IH]; cbn.
  - tauto.
  - destruct (keqb_spec k k') as [->|Hn].
    + split; [discriminate | intros Hc; exfalso; apply Hc; now left].
    + rewrite IH. split; intros Hc; [intros [E|E]; [congruence | now apply Hc] | tauto].
Qed.

Lemma mem_true_iff d k : Dict.mem k d = true <-> In k (Dict.keys d).
Proof.
  unfold Dict.mem. destruct (Dict.get d k) eqn:E.
  - split; [intros _ | reflexivity].
    destruct (in_dec (fun a b => reflect_dec _ _ (keqb_spec a b)) k (Dict.keys d))
      as [Hi|Hi]; [exact Hi|].
    apply get_none_iff in Hi. congruence.
  - apply get_none_iff in E. split; [discriminate | tauto].
Qed.

Lemma mem_false_iff d k : Dict.mem k d = false <-> Dict.get d k = None.
Proof. unfold Dict.mem; destruct (Dict.get d k); split; congruence. Qed.

(** Assigning to an absent key appends the entry. *)
Lemma set_absent d k v : Dict.get d k = None -> Dict.set d k v = d ++ [(k, v)].
Proof.
  induction d as [|[k' v'] d IH]; cbn; [reflexivity|].
  destruct (keqb k k'); [discriminate|]. intros E. now rewrite IH.
Qed.

Lemma get_app d d' k :
  Dict.get (d ++ d') k
  = match Dict.get d k with Some v => Some v | None => Dict.get d' k end.
Proof.
  induction d as [|[k' v'] d IH]; cbn; [reflexivity|].
  destruct (keqb k k'); [reflexivity | exact IH].
Qed.

Lemma get_set_same d k v : Dict.get (Dict.set d k v) k = Some v.
Proof.
  induction d as [|[k' v'] d IH]; cbn.
  - now rewrite keqb_refl.
  - destruct (keqb k k') eqn:E; cbn; rewrite E; [reflexivity | exact IH].
Qed.

Lemma get_set_other d k k0 v : k0 <> k -> Dict.get (Dict.set d k v) k0 = Dict.get d k0.
Proof.
  intros Hn. induction d as [|[k' v'] d IH]; cbn.
  - now rewrite keqb_neq.
  - destruct (keqb_spec k k') as [->|Hk]; cbn.
    + now rewrite keqb_neq.
    + destruct (keqb k0 k'); [reflexivity | exact IH].
Qed.

Lemma keys_set_absent d k v :
  Dict.get d k = None -> Dict.keys (Dict.set d k v) = Dict.keys d ++ [k].
Proof.
  intros E. rewrite set_absent by exact E. unfold Dict.keys. now rewrite map_app.
Qed.

(** Deleting a key of a well-formed dictionary leaves the other entries. *)
Lemma del_wf d k :
  Dict.wf d -> Dict.mem k d = true ->
  Dict.del d k = Some (filter (fun kv => negb (keqb k (fst kv))) d).
Proof.
  unfold Dict.wf. induction d as [|[k' v'] d IH]; cbn; intros Hnd Hm.
  - discriminate.
  - inversion Hnd as [|? ? Hni Hnd']; subst.
    unfold Dict.mem in Hm; cbn in Hm.
    destruct (keqb_spec k k') as [->|Hk]; cbn.
    + f_equal. symmetry. apply forallb_filter_id.
      apply forallb_forall. intros [k1 v1] Hin; cbn.
      rewrite keqb_neq; [reflexivity|].
      intros ->. apply Hni. change k1 with (fst (k1, v1)). now apply in_map.
    + rewrite IH; [reflexivity | exact Hnd' | exact Hm].
Qed.

Lemma del_present d k : Dict.mem k d = true -> exists d', Dict.del d k = Some d'.
Proof.
  induction d as [|[k' v'] d IH]; unfold Dict.mem; cbn; [discriminate|].
  destruct (keqb k k'); [eauto|]. intros Hm.
  destruct (IH Hm) as [d' ->]. eauto.
Qed.

End DictFacts.

(** ** The order on names and the normalized pair *)

Lemma ltb_asym (a b : string) : String.ltb a b = true -> String.ltb b a = false.
Proof.
  unfold String.ltb. rewrite (String.compare_antisym a b).
  destruct (String.compare b a); cbn; congruence.
Qed.

Lemma ltb_connex (a b : string) :
  String.ltb a b = false -> String.ltb b a = false -> a = b.
Proof.
  unfold String.ltb. rewrite (String.compare_antisym a b).
  destruct (String.compare b a) eqn:E; cbn; try congruence.
  intros _ _. symmetry. now apply String.compare_eq_iff.
Qed.

Lemma sorted_pair_comm (a b : string) : sorted_pair a b = sorted_pair b a.
Proof.
  unfold sorted_pair.
  destruct (String.ltb b a) eqn:E1, (String.ltb a b) eqn:E2; try reflexivity.
  - apply ltb_asym in E1. congruence.
  - now rewrite (ltb_connex _ _ E2 E1).
Qed.

Lemma sorted_pair_cases (a b : string) :
  sorted_pair a b = (a, b) \/ sorted_pair a b = (b, a).
Proof. unfold sorted_pair. destruct (String.ltb b a); auto. Qed.

Lemma get_edge_comm (g : Graph.t) (a b : string) :
  Graph.get_edge g a b = Graph.get_edge g b a.
Proof. unfold Graph.get_edge. now rewrite sorted_pair_comm. Qed.

Lemma in_key_sorted_pair (n a b : string) :
  in_key n (sorted_pair a b) = in_key n (a, b).
Proof.
  destruct (sorted_pair_cases a b) as [-> | ->]; [reflexivity|].
  unfold in_key; cbn. apply orb_comm.
Qed.

(** ** The mutating operations of Graph *)

Lemma del_after_prefix (pre rest : Dict.t (string * string) Edge.t)
    (k : string * string) (e : Edge.t) :
  (forall kv, In kv pre -> keqb k (fst kv) = false) ->
  Dict.del (pre ++ (k, e) :: rest) k = Some (pre ++ rest).
Proof.
  induction pre as [|[k' e'] pre IH]; cbn [app Dict.del]; intros Hpre.
  - now rewrite keqb_refl.
  - pose proof (Hpre (k', e') (or_introl eq_refl)) as E. cbn [fst] in E. rewrite E.
    rewrite IH; [reflexivity|]. intros kv Hin. apply Hpre. now right.
Qed.

(** The deletion loop of [delete_node] removes the incident edges, keeps
    the others in place, and meets no missing key. *)
Lemma delete_keys_incident (name : string) (ns : Dict.t string Node.t)
    (es pre : Dict.t (string * string) Edge.t) :
  (forall kv, In kv pre -> in_key name (fst kv) = false) ->
  Graph.delete_keys (filter (in_key name) (Dict.keys es)) (Graph.mk ns (pre ++ es))
  = (Ret tt,
     Graph.mk ns (pre ++ filter (fun kv => negb (in_key name (fst kv))) es)).
Proof.
  revert pre. induction es as [|[k e] es IH]; intros pre Hpre.
  - reflexivity.
  - cbn [Dict.keys map filter fst]. destruct (in_key name k) eqn:Ek; cbn [negb].
    + cbn [Graph.delete_keys Graph.edges Graph.nodes].
      rewrite del_after_prefix.
      * apply IH, Hpre.
      * intros kv Hin. apply keqb_neq. intros ->.
        rewrite (Hpre kv Hin) in Ek. discriminate.
    + replace (pre ++ (k, e) :: es) with ((pre ++ [(k, e)]) ++ es)
        by now rewrite <- app_assoc.
      fold (Dict.keys es). rewrite IH.
      * now rewrite <- app_assoc.
      * intros kv [Hin | [<- | []]]%in_app_iff; [now apply Hpre | exact Ek].
Qed.

Lemma delete_node_present (g : Graph.t) (name : string) :
  Dict.mem name (Graph.nodes g) = true ->
  exists ns,
    Dict.del (Graph.nodes g) name = Some ns
    /\ Graph.delete_node g name
       = (Ret (List.length (filter (in_key name) (Dict.keys (Graph.edges g)))),
          Graph.mk ns
            (filter (fun kv => negb (in_key name (fst kv))) (Graph.edges g))).
Proof.
  intros Hm. destruct (del_present _ _ Hm) as [ns Hns]. exists ns. split; [exact Hns|].
  unfold Graph.delete_node. rewrite Hm. cbn [negb].
  destruct g as [nodes edges]. cbn [Graph.nodes Graph.edges] in *.
  pose proof (delete_keys_incident name nodes edges []) as E.
  cbn [app] in E. rewrite E by (intros ? []).
  cbn [Graph.nodes Graph.edges]. now rewrite Hns.
Qed.

Lemma scan_edges_app (es es' : Dict.t (string * string) Edge.t)
    (name : string) (acc : bool) :
  Graph.scan_edges (es ++ es') name acc
  = Graph.scan_edges es name acc ++ Graph.scan_edges es' name acc.
Proof.
  induction es as [|[[a b] e] es IH]; cbn; [reflexivity|].
  rewrite IH.
  destruct (Edge.closed e); [reflexivity|].
  destruct (acc && negb (Edge.accessible e)); [reflexivity|].
  destruct (String.eqb a name); [reflexivity|].
  destruct (String.eqb b name); reflexivity.
Qed.

Lemma add_edge_success (g : Graph.t) (u v : string) (d t : float) (a : bool) :
  u <> v ->
  Dict.mem u (Graph.nodes g) = true ->
  Dict.mem v (Graph.nodes g) = true ->
  Dict.mem (sorted_pair u v) (Graph.edges g) = false ->
  (d <=? 0)%float = false ->
  (t <=? 0)%float = false ->
  Graph.add_edge g u v d t a
  = (Ret tt,
     Graph.mk (Graph.nodes g)
       (Graph.edges g
        ++ [(sorted_pair u v, Edge.mk u v d t a false None None)])).
Proof.
  intros Huv Hu Hv Hk Hd Ht. unfold Graph.add_edge.
  apply String.eqb_neq in Huv. rewrite Huv, Hu, Hv, Hk, Hd, Ht. cbn.
  rewrite set_absent; [reflexivity|]. now apply mem_false_iff.
Qed.

(** A successful [add_edge] passed every check. *)
Lemma add_edge_ret_inv (g g' : Graph.t) (u v : string) (d t : float)
    (a : bool) (r : unit) :
  Graph.add_edge g u v d t a = (Ret r, g') ->
  u <> v
  /\ Dict.mem u (Graph.nodes g) = true
  /\ Dict.mem v (Graph.nodes g) = true
  /\ Dict.mem (sorted_pair u v) (Graph.edges g) = false
  /\ (d <=? 0)%float = false
  /\ (t <=? 0)%float = false.
Proof.
  unfold Graph.add_edge.
  destruct (String.eqb_spec u v) as [|Huv]; [discriminate|].
  destruct (Dict.mem u (Graph.nodes g)); [|discriminate].
  destruct (Dict.mem v (Graph.nodes g)); [|discriminate]. cbn.
  destruct (Dict.mem (sorted_pair u v) (Graph.edges g)); [discriminate|].
  destruct (d <=? 0)%float; [discriminate|].
  destruct (t <=? 0)%float; [discriminate|].
  intros _. repeat split; auto.
Qed.

(** C4. [add_edge] fails on a self-loop, on a missing endpoint, on an
    existing edge for the normalized pair, and on a distance or a time that
    is [<= 0]; in every other case it leaves the nodes as they are and adds
    one entry to the edge dictionary, under the normalized pair, holding the
    given distance, time and accessibility, and not closed. *)
Theorem add_edge_contract (g : Graph.t) (u v : string) (d t : float) (a : bool) :
  (u = v -> fails (Graph.add_edge g u v d t a))
  /\ (Dict.mem u (Graph.nodes g) = false \/ Dict.mem v (Graph.nodes g) = false ->
      fails (Graph.add_edge g u v d t a))
  /\ (Dict.mem (sorted_pair u v) (Graph.edges g) = true ->
      fails (Graph.add_edge g u v d t a))
  /\ ((d <=? 0)%float = true \/ (t <=? 0)%float = true ->
      fails (Graph.add_edge g u v d t a))
  /\ (u <> v ->
      Dict.mem u (Graph.nodes g) = true ->
      Dict.mem v (Graph.nodes g) = true ->
      Dict.mem (sorted_pair u v) (Graph.edges g) = false ->
      (d <=? 0)%float = false ->
      (t <=? 0)%float = false ->
      Graph.add_edge g u v d t a
      = (Ret tt,
         Graph.mk (Graph.nodes g)
           (Graph.edges g
            ++ [(sorted_pair u v, Edge.mk u v d t a false None None)]))).
Proof.
  unfold fails, Graph.add_edge. repeat split.
  - intros ->. rewrite String.eqb_refl. cbn. eauto.
  - intros Hm. destruct (String.eqb u v); [cbn; eauto|].
    destruct Hm as [-> | ->]; cbn; [eauto|]. rewrite orb_true_r. cbn. eauto.
  - intros Hk. destruct (String.eqb u v); [cbn; eauto|].
    destruct (negb _ || negb _); [cbn; eauto|]. cbn. rewrite Hk. cbn. eauto.
  - intros Hw. destruct (String.eqb u v); [cbn; eauto|].
    destruct (negb _ || negb _); [cbn; eauto|]. cbn.
    destruct (Dict.mem _ (Graph.edges g)); [cbn; eauto|].
    destruct Hw as [-> | ->]; cbn; [eauto|]. rewrite orb_true_r. cbn. eauto.
  - apply add_edge_success.
Qed.

Lemma add_edge_contract_witness :
  fails (Graph.add_edge fixture "A" "A" 1 1 true)
  /\ fails (Graph.add_edge fixture "A" "Z" 1 1 true)
  /\ fails (Graph.add_edge fixture "B" "A" 1 1 true)
  /\ fails (Graph.add_edge fixture "A" "D" 0 1 true)
  /\ Graph.add_edge fixture "D" "A" 7 2 false
     = (Ret tt,
        Graph.mk (Graph.nodes fixture)
          (Graph.edges fixture
           ++ [(("A", "D"), Edge.mk "D" "A" 7 2 false false None None)])).
Proof.
  destruct (add_edge_contract fixture "A" "A" 1 1 true) as [H1 _].
  destruct (add_edge_contract fixture "A" "Z" 1 1 true) as [_ [H2 _]].
  destruct (add_edge_contract fixture "B" "A" 1 1 true) as [_ [_ [H3 _]]].
  destruct (add_edge_contract fixture "A" "D" 0 1 true) as [_ [_ [_ [H4 _]]]].
  destruct (add_edge_contract fixture "D" "A" 7 2 false) as [_ [_ [_ [_ H5]]]].
  split; [apply H1; reflexivity|].
  split; [apply H2; right; vm_compute; reflexivity|].
  split; [apply H3; vm_compute; reflexivity|].
  split; [apply H4; left; vm_compute; reflexivity|].
  apply H5; [discriminate | vm_compute; reflexivity ..].
Defined.

Lemma keys_filter {K V : Type} (P : K -> bool) (d : Dict.t K V) :
  Dict.keys (filter (fun kv => P (fst kv)) d) = filter P (Dict.keys d).
Proof.
  unfold Dict.keys. induction d as [|[k v] d IH]; cbn; [reflexivity|].
  destruct (P k); cbn; now rewrite IH.
Qed.

(** The node dictionary stays a dictionary: it starts without a repeated
    key and no operation of [Graph] introduces one. *)
Lemma nodes_wf_preserved (g : Graph.t) :
  Dict.wf (Graph.nodes Graph.empty)
  /\ (Dict.wf (Graph.nodes g) ->
      (forall name x y, Dict.wf (Graph.nodes (snd (Graph.add_node g name x y))))
      /\ (forall name, Dict.wf (Graph.nodes (snd (Graph.delete_node g name))))
      /\ (forall u v d t a,
            Dict.wf (Graph.nodes (snd (Graph.add_edge g u v d t a))))
      /\ (forall u v, Dict.wf (Graph.nodes (snd (Graph.delete_edge g u v))))).
Proof.
  split; [constructor|]. intros Hwf. repeat split.
  - intros name x y. unfold Graph.add_node.
    destruct (is_blank name); [exact Hwf|].
    destruct (Dict.mem name (Graph.nodes g)) eqn:Hm; [exact Hwf|].
    cbn [snd Graph.nodes]. unfold Dict.wf.
    rewrite keys_set_absent by now apply mem_false_iff.
    apply NoDup_app; [exact Hwf | constructor; [intros [] | constructor] |].
    intros k Hk [<- | []]. apply mem_true_iff in Hk. congruence.
  - intros name. destruct (Dict.mem name (Graph.nodes g)) eqn:Hm.
    + destruct (delete_node_present g name Hm) as [ns [Hns ->]].
      rewrite (del_wf (Graph.nodes g) name Hwf Hm) in Hns.
      injection Hns as <-. cbn [snd Graph.nodes]. unfold Dict.wf.
      pose proof (keys_filter (fun k => negb (String.eqb name k))
                    (Graph.nodes g)) as E.
      cbv beta in E. rewrite E. now apply NoDup_filter.
    + unfold Graph.delete_node. now rewrite Hm.
  - intros u v d t a. unfold Graph.add_edge.
    destruct (String.eqb u v); [exact Hwf|].
    destruct (negb _ || negb _); [exact Hwf|]. cbn.
    destruct (Dict.mem _ (Graph.edges g)); [exact Hwf|].
    destruct (_ || _); exact Hwf.
  - intros u v. unfold Graph.delete_edge. cbn.
    destruct (Dict.mem _ (Graph.edges g)); cbn; [|exact Hwf].
    destruct (Dict.del _ _); exact Hwf.
Qed.

Lemma filter_key_absent {V : Type} (P : string * string -> bool)
    (d : Dict.t (string * string) V) (k : string * string) :
  P k = false -> Dict.get (filter (fun kv => P (fst kv)) d) k = None.
Proof.
  intros Hk. apply get_none_iff. intros Hin.
  apply in_map_iff in Hin as [[k' v'] [E Hin]]. cbn in E. subst k'.
  apply filter_In in Hin as [_ Hp]. cbn in Hp. congruence.
Qed.

Lemma filter_key_kept {K V : Type} `{Key K} (P : K -> bool)
    (d : Dict.t K V) (k : K) :
  P k = true -> Dict.get (filter (fun kv => P (fst kv)) d) k = Dict.get d k.
Proof.
  intros Hk. induction d as [|[k' v'] d IH]; cbn [filter fst]; [reflexivity|].
  destruct (P k') eqn:E; cbn [Dict.get].
  - destruct (keqb k k'); [reflexivity | exact IH].
  - destruct (keqb_spec k k') as [->|_]; [congruence | exact IH].
Qed.

(** C5. [delete_node] on an existing name removes the node and exactly the
    edges whose key mentions the name, keeps every other node and edge as
    it was and where it was, and returns the number of edges removed;
    afterwards no edge mentions the name.  On a missing name it fails and
    the model is unchanged. *)
Theorem delete_node_contract (g : Graph.t) (name : string) :
  Dict.wf (Graph.nodes g) ->
  (Dict.mem name (Graph.nodes g) = true ->
   let removed := filter (in_key name) (Dict.keys (Graph.edges g)) in
   let g' :=
     Graph.mk
       (filter (fun kv => negb (String.eqb name (fst kv))) (Graph.nodes g))
       (filter (fun kv => negb (in_key name (fst kv))) (Graph.edges g)) in
   Graph.delete_node g name = (Ret (List.length removed), g')
   /\ Dict.get (Graph.nodes g') name = None
   /\ (forall n, n <> name ->
         Dict.get (Graph.nodes g') n = Dict.get (Graph.nodes g) n)
   /\ (forall k, in_key name k = true -> Dict.get (Graph.edges g') k = None)
   /\ (forall k, in_key name k = false ->
         Dict.get (Graph.edges g') k = Dict.get (Graph.edges g) k)
   /\ List.length removed + List.length (Graph.edges g')
      = List.length (Graph.edges g))
  /\ (Dict.mem name (Graph.nodes g) = false ->
      exists e, Graph.delete_node g name = (Raise e, g)).
Proof.
  intros Hwf. split.
  - intros Hm removed g'.
    destruct (delete_node_present g name Hm) as [ns [Hns Hdel]].
    rewrite (del_wf (Graph.nodes g) name Hwf Hm) in Hns.
    injection Hns as <-. split; [exact Hdel|].
    subst g'; cbn [Graph.nodes Graph.edges]. repeat split.
    + apply get_none_iff. intros Hin.
      apply in_map_iff in Hin as [[k' v'] [E Hin]]. cbn in E. subst k'.
      apply filter_In in Hin as [_ Hp]. cbn in Hp.
      now rewrite String.eqb_refl in Hp.
    + intros n Hn.
      apply (filter_key_kept (fun k => negb (String.eqb name k))).
      apply negb_true_iff, String.eqb_neq. congruence.
    + intros k Hk.
      apply (filter_key_absent (fun k => negb (in_key name k))).
      now rewrite Hk.
    + intros k Hk.
      apply (filter_key_kept (fun k => negb (in_key name k))).
      now rewrite Hk.
    + subst removed. unfold Dict.keys.
      generalize (Graph.edges g) as es.
      induction es as [|[k e] es IH]; cbn [map filter fst]; [reflexivity|].
      destruct (in_key name k); cbn [negb List.length]; lia.
  - intros Hm. unfold Graph.delete_node. rewrite Hm. cbn. eauto.
Qed.

Lemma delete_node_contract_witness :
  Graph.delete_node fixture "C"
  = (Ret 3,
     Graph.mk
       (filter (fun kv => negb (String.eqb "C" (fst kv))) (Graph.nodes fixture))
       [(("A", "B"), Edge.mk "A" "B" 100 1 true false None None)])
  /\ exists e, Graph.delete_node fixture "Z" = (Raise e, fixture).
Proof.
  assert (Hwf : Dict.wf (Graph.nodes fixture)).
  { unfold Dict.wf. vm_compute.
    repeat (constructor; [intros H; cbn in H; intuition discriminate|]).
    constructor. }
  destruct (delete_node_contract fixture "C" Hwf) as [H1 _].
  destruct (delete_node_contract fixture "Z" Hwf) as [_ H2].
  split.
  - exact (proj1 (H1 eq_refl)).
  - exact (H2 eq_refl).
Defined.

(** C6. A mutating operation that raises leaves the node dictionary and
    the edge dictionary exactly as they were before the call. *)
Theorem failed_mutation_changes_nothing (g : Graph.t) :
  (forall name x y e,
     fst (Graph.add_node g name x y) = Raise e ->
     snd (Graph.add_node g name x y) = g)
  /\ (forall name e,
        fst (Graph.delete_node g name) = Raise e ->
        snd (Graph.delete_node g name) = g)
  /\ (forall u v d t a e,
        fst (Graph.add_edge g u v d t a) = Raise e ->
        snd (Graph.add_edge g u v d t a) = g)
  /\ (forall u v e,
        fst (Graph.delete_edge g u v) = Raise e ->
        snd (Graph.delete_edge g u v) = g).
Proof.
  repeat split.
  - intros name x y e. unfold Graph.add_node.
    destruct (is_blank name); [reflexivity|].
    destruct (Dict.mem name (Graph.nodes g)); [reflexivity | discriminate].
  - intros name e.
    destruct (Dict.mem name (Graph.nodes g)) eqn:Hm.
    + destruct (delete_node_present g name Hm) as [ns [_ ->]]. discriminate.
    + unfold Graph.delete_node. now rewrite Hm.
  - intros u v d t a e. unfold Graph.add_edge.
    destruct (String.eqb u v); [reflexivity|].
    destruct (negb _ || negb _); [reflexivity|]. cbn.
    destruct (Dict.mem _ (Graph.edges g)); [reflexivity|].
    destruct (_ || _); [reflexivity | discriminate].
  - intros u v e. unfold Graph.delete_edge. cbn.
    destruct (Dict.mem _ (Graph.edges g)) eqn:Hm; cbn; [|reflexivity].
    destruct (del_present _ _ Hm) as [es ->]. discriminate.
Qed.

Lemma failed_mutation_changes_nothing_witness :
  snd (Graph.add_node fixture "  " 1 2) = fixture
  /\ snd (Graph.add_node fixture "A" 1 2) = fixture
  /\ snd (Graph.delete_node fixture "Z") = fixture
  /\ snd (Graph.add_edge fixture "B" "A" 3 4 true) = fixture
  /\ snd (Graph.add_edge fixture "A" "D" (-1) 4 true) = fixture
  /\ snd (Graph.delete_edge fixture "A" "D") = fixture.
Proof.
  destruct (failed_mutation_changes_nothing fixture) as [H1 [H2 [H3 H4]]].
  split; [eapply H1; vm_compute; reflexivity|].
  split; [eapply H1; vm_compute; reflexivity|].
  split; [eapply H2; vm_compute; reflexivity|].
  split; [eapply H3; vm_compute; reflexivity|].
  split; [eapply H3; vm_compute; reflexivity|].
  eapply H4; vm_compute; reflexivity.
Defined.

Lemma add_edge_fails_swap (g : Graph.t) (u v : string) (d t : float) (a : bool) :
  fails (Graph.add_edge g u v d t a) -> fails (Graph.add_edge g v u d t a).
Proof.
  unfold fails, Graph.add_edge.
  rewrite (String.eqb_sym v u), (sorted_pair_comm v u),
    (orb_comm (negb (Dict.mem v _))).
  destruct (String.eqb u v); [cbn; eauto|].
  destruct (negb _ || negb _); [cbn; eauto|]. cbn.
  destruct (Dict.mem _ (Graph.edges g)); [cbn; eauto|].
  destruct (_ || _); cbn; [eauto|]. intros [e He]. discriminate.
Qed.

Lemma add_edge_twice (g : Graph.t) (u v : string) (e : Edge.t)
    (d t : float) (a : bool) :
  fails (Graph.add_edge
           (Graph.mk (Graph.nodes g) (Graph.edges g ++ [(sorted_pair u v, e)]))
           u v d t a).
Proof.
  unfold fails, Graph.add_edge. cbn [Graph.nodes Graph.edges].
  destruct (String.eqb u v); [cbn; eauto|].
  destruct (negb _ || negb _); [cbn; eauto|]. cbn -[keqb].
  unfold Dict.mem. rewrite get_app.
  destruct (Dict.get (Graph.edges g) (sorted_pair u v)); [cbn; eauto|].
  cbn [Dict.get]. rewrite keqb_refl. cbn. eauto.
Qed.

(** C7 (as the code has it). For distinct [u] and [v], [add_edge(u, v, ...)]
    and [add_edge(v, u, ...)] fail together; when they succeed, both leave
    the nodes unchanged and append one entry under the same normalized key,
    with the same distance, time, accessibility and [closed = false], the
    stored edge keeping its endpoints in the order the arguments had.  After
    either, [add_edge] with the endpoints in either order fails.  [get_edge]
    returns the same entry, or none, for both orders of its arguments. *)
Theorem add_edge_either_order (g : Graph.t) (u v : string) (d t : float)
    (a : bool) :
  u <> v ->
  let k := sorted_pair u v in
  let g_uv := Graph.mk (Graph.nodes g)
                (Graph.edges g ++ [(k, Edge.mk u v d t a false None None)]) in
  let g_vu := Graph.mk (Graph.nodes g)
                (Graph.edges g ++ [(k, Edge.mk v u d t a false None None)]) in
  (fails (Graph.add_edge g u v d t a) <-> fails (Graph.add_edge g v u d t a))
  /\ (forall r g', Graph.add_edge g u v d t a = (Ret r, g') ->
        Graph.add_edge g u v d t a = (Ret tt, g_uv)
        /\ Graph.add_edge g v u d t a = (Ret tt, g_vu)
        /\ (forall d' t' a',
              fails (Graph.add_edge g_uv u v d' t' a')
              /\ fails (Graph.add_edge g_uv v u d' t' a')
              /\ fails (Graph.add_edge g_vu u v d' t' a')
              /\ fails (Graph.add_edge g_vu v u d' t' a')))
  /\ (forall x y, Graph.get_edge g x y = Graph.get_edge g y x).
Proof.
  intros Huv k g_uv g_vu. split; [|split].
  - split; apply add_edge_fails_swap.
  - intros r g' Hret.
    apply add_edge_ret_inv in Hret as (_ & Hu & Hv & Hk & Hd & Ht).
    split; [now apply add_edge_success|].
    split.
    + subst g_vu k. rewrite (sorted_pair_comm u v).
      apply add_edge_success; auto. now rewrite <- (sorted_pair_comm u v).
    + intros d' t' a'. subst g_uv g_vu k.
      repeat split; try apply add_edge_twice;
        apply add_edge_fails_swap, add_edge_twice.
  - apply get_edge_comm.
Qed.

Lemma add_edge_either_order_witness :
  Graph.add_edge diamond_ab "T" "S" 3 2 true
  = (Ret tt,
     Graph.mk (Graph.nodes diamond_ab)
       (Graph.edges diamond_ab
        ++ [(("S", "T"), Edge.mk "T" "S" 3 2 true false None None)]))
  /\ Graph.add_edge diamond_ab "S" "T" 3 2 true
     = (Ret tt,
        Graph.mk (Graph.nodes diamond_ab)
          (Graph.edges diamond_ab
           ++ [(("S", "T"), Edge.mk "S" "T" 3 2 true false None None)])).
Proof.
  assert (Hn : "T" <> "S") by discriminate.
  destruct (add_edge_either_order diamond_ab "T" "S" 3 2 true Hn)
    as [_ [H _]].
  assert (E : Graph.add_edge diamond_ab "T" "S" 3 2 true
              = (Ret tt, snd (Graph.add_edge diamond_ab "T" "S" 3 2 true)))
    by (vm_compute; reflexivity).
  destruct (H tt _ E) as [H1 [H2 _]].
  split; [exact H1 | exact H2].
Defined.

(** C7, as stated, fails: the two calls leave different states, because the
    stored edge records [u] and [v] as they were passed. *)
Lemma add_edge_orders_differ :
  snd (Graph.add_edge diamond_ab "S" "T" 3 2 true)
  <> snd (Graph.add_edge diamond_ab "T" "S" 3 2 true).
Proof. vm_compute. intros H. discriminate H. Qed.

Lemma neighbors_flat_map (g : Graph.t) (name : string) (acc : bool) :
  Graph.neighbors g name acc
  = flat_map (neighbor_of name acc) (Graph.edges g).
Proof.
  unfold Graph.neighbors, neighbor_of.
  induction (Graph.edges g) as [|kv es IH]; [reflexivity|].
  change (kv :: es) with ([kv] ++ es) at 1.
  rewrite scan_edges_app, IH. reflexivity.
Qed.



(** C9. On the fixture, BFS from A to D over all edges visits A, B, C, D
    and returns the path A, C, D, whose total distance is 550 and total
    time is 6. *)
Theorem scenario_bfs_all_edges :
  Dict.keys (Graph.nodes fixture) = ["A"; "B"; "C"; "D"]
  /\ Dict.keys (Graph.edges fixture)
     = [("A", "B"); ("B", "C"); ("A", "C"); ("C", "D")]
  /\ App._bfs fixture "A" "D" false
     = Ret (["A"; "B"; "C"; "D"], ["A"; "C"; "D"])
  /\ App.totals fixture ["A"; "C"; "D"] 0 0 = (550%float, 6%float).
Proof. repeat split; vm_compute; reflexivity. Qed.

(** The second scenario of the specification: with only accessible edges
    wanted, D is out of reach; and deleting C removes its three edges. *)
Lemma scenario_accessible_only :
  App._bfs fixture "A" "D" true = Ret (["A"; "B"; "C"], [])
  /\ App._dfs fixture "A" "D" true = Ret (["A"; "B"; "C"], [])
  /\ fst (Graph.delete_node fixture "C") = Ret 3.
Proof. repeat split; vm_compute; reflexivity. Qed.

(** C10. With [start = goal = s] both traversals return without raising,
    with the visited order [s] and the path [s]. *)
Theorem start_is_goal (g : Graph.t) (s : string) (acc : bool) :
  App._bfs g s s acc = Ret ([s], [s])
  /\ App._dfs g s s acc = Ret ([s], [s]).
Proof.
  assert (Hrec : App._reconstruct_path [(s, None)] s s = Ret [s]).
  { unfold App._reconstruct_path, Dict.mem. cbn.
    rewrite !String.eqb_refl. cbn. now rewrite String.eqb_refl. }
  split.
  - unfold App._bfs, App.fuel_of, App.Bfs.init. cbn.
    rewrite String.eqb_refl. cbn. now rewrite Hrec.
  - unfold App._dfs, App.fuel_of, App.Dfs.init. cbn.
    rewrite String.eqb_refl. cbn. now rewrite Hrec.
Qed.

(** ** Traversable edges and neighbors *)

Lemma blocked_false_iff (g : Graph.t) (acc : bool) (a b : string) :
  App.blocked acc (Graph.get_edge g a b) = false <-> traversable g acc a b.
Proof.
  unfold traversable, App.blocked. destruct (Graph.get_edge g a b) as [e|].
  - split.
    + intros Hb. apply orb_false_iff in Hb as [Hc Ha]. exists e.
      repeat split; [exact Hc|]. intros ->. cbn in Ha.
      now apply negb_false_iff in Ha.
    + intros [e' [[= <-] [Hc Ha]]]. rewrite Hc. cbn.
      destruct acc; [|reflexivity]. cbn. now rewrite Ha.
  - split; [discriminate | intros [e [[=] _]]].
Qed.

Lemma scan_edges_tail (kv : (string * string) * Edge.t)
    (es : Dict.t (string * string) Edge.t) (name w : string) (acc : bool) :
  In w (Graph.scan_edges es name acc) ->
  In w (Graph.scan_edges (kv :: es) name acc).
Proof.
  destruct kv as [[x y] e]. cbn. intros Hin.
  destruct (Edge.closed e); [exact Hin|].
  destruct (acc && negb (Edge.accessible e)); [exact Hin|].
  destruct (String.eqb x name); [now right|].
  destruct (String.eqb y name); [now right | exact Hin].
Qed.

(** What the filter of the traversals lets through is among the neighbors. *)
Lemma traversable_neighbor (g : Graph.t) (acc : bool) (a b : string) :
  traversable g acc a b -> In b (Graph.neighbors g a acc).
Proof.
  intros [e [Hget [Hc Ha]]]. unfold Graph.neighbors, Graph.get_edge in *.
  induction (Graph.edges g) as [|[[x y] e'] es IH]; [discriminate|].
  cbn [Dict.get] in Hget.
  destruct (keqb_spec (sorted_pair a b) (x, y)) as [Ek|Hk].
  - injection Hget as ->. cbn. rewrite Hc.
    replace (acc && negb (Edge.accessible e)) with false
      by (destruct acc; [now rewrite Ha|reflexivity]).
    destruct (sorted_pair_cases a b) as [E|E]; rewrite E in Ek;
      injection Ek as <- <-.
    + rewrite String.eqb_refl. now left.
    + destruct (String.eqb_spec b a) as [->|_]; [now left|].
      rewrite String.eqb_refl. now left.
  - apply scan_edges_tail, IH, Hget.
Qed.

Lemma neighbors_endpoints (g : Graph.t) (acc : bool) (a w : string) :
  In w (Graph.neighbors g a acc) -> In w (endpoints g).
Proof.
  unfold Graph.neighbors, endpoints.
  induction (Graph.edges g) as [|[[x y] e] es IH]; cbn; [tauto|].
  destruct (Edge.closed e); [tauto|].
  destruct (acc && negb (Edge.accessible e)); [tauto|].
  destruct (String.eqb x a); [cbn; intuition|].
  destruct (String.eqb y a); [cbn; intuition|tauto].
Qed.

Lemma endpoints_length (g : Graph.t) :
  List.length (endpoints g) = 2 * List.length (Graph.edges g).
Proof.
  unfold endpoints. induction (Graph.edges g) as [|kv es IH]; cbn in *; lia.
Qed.

(** ** Paths *)

Lemma last_in (l : list string) (d : string) : l <> [] -> In (last l d) l.
Proof.
  induction l as [|a [|b l] IH]; intros Hne.
  - congruence.
  - now left.
  - right. apply IH. discriminate.
Qed.

Section Paths.
Variables (g : Graph.t) (acc : bool).

Lemma chain_snoc (R : string -> string -> Prop) (p : list string) (d x : string) :
  p <> [] -> chain R p -> R (last p d) x -> chain R (p ++ [x]).
Proof.
  induction p as [|a [|b p] IH]; intros Hne Hc Hl.
  - congruence.
  - cbn in *. tauto.
  - destruct Hc as [Hab Hc]. split; [exact Hab|].
    apply IH; [discriminate | exact Hc | exact Hl].
Qed.

Lemma chain_snoc_inv (R : string -> string -> Prop) (p : list string) (d x : string) :
  p <> [] -> chain R (p ++ [x]) -> chain R p /\ R (last p d) x.
Proof.
  induction p as [|a [|b p] IH]; intros Hne Hc.
  - congruence.
  - cbn in *. tauto.
  - destruct Hc as [Hab Hc].
    destruct IH as [Hc' Hl]; [discriminate | exact Hc |].
    split; [split; assumption | exact Hl].
Qed.

Lemma route_refl (s : string) : route g acc s s [s].
Proof. repeat split. Qed.

Lemma route_nonempty (s x : string) (p : list string) :
  route g acc s x p -> exists r, p = s :: r.
Proof. intros [Hh _]. destruct p; [discriminate|]. injection Hh as ->. eauto. Qed.

Lemma route_snoc (s y x : string) (p : list string) :
  route g acc s y p -> traversable g acc y x -> route g acc s x (p ++ [x]).
Proof.
  intros Hr Ht. destruct (route_nonempty _ _ _ Hr) as [r ->].
  destruct Hr as (_ & Hl & Hc). repeat split.
  - apply (last_last (s :: r)).
  - apply chain_snoc with (d := s); [discriminate | exact Hc | now rewrite Hl].
Qed.

(** Induction on a path from its start, one edge at a time. *)
Lemma route_snoc_ind (s : string) (P : string -> list string -> Prop) :
  P s [s] ->
  (forall y x p, route g acc s y p -> P y p -> traversable g acc y x ->
                 P x (p ++ [x])) ->
  forall x p, route g acc s x p -> P x p.
Proof.
  intros Hbase Hstep x p. revert x.
  induction p as [|z p IH] using rev_ind; intros x Hr.
  - destruct Hr as [Hh _]. discriminate.
  - destruct p as [|a p].
    + destruct Hr as (Hh & Hl & _). cbn in Hh, Hl. injection Hh as ->.
      subst x. exact Hbase.
    + destruct Hr as (Hh & Hl & Hc).
      rewrite last_last in Hl. subst z.
      apply chain_snoc_inv with (d := s) in Hc as [Hc Ht]; [|discriminate].
      assert (Hr' : route g acc s (last (a :: p) s) (a :: p)).
      { repeat split; [exact Hh | exact Hc]. }
      apply (Hstep (last (a :: p) s)); [exact Hr' | apply IH, Hr' | exact Ht].
Qed.

Lemma route_hops (s x : string) (p : list string) :
  route g acc s x p -> List.length p = S (hops p).
Proof.
  intros Hr. destruct (route_nonempty _ _ _ Hr) as [r ->].
  unfold hops. cbn. lia.
Qed.

End Paths.

(** ** Parent chains and path reconstruction *)

Section Lineage.
Variable start : string.
Implicit Types (P : Dict.t string (option string)) (l : list string).

Lemma lineage_frame P P' x l :
  lineage P start x l ->
  (forall y, In y l -> Dict.get P' y = Dict.get P y) ->
  lineage P' start x l.
Proof.
  induction 1 as [Hroot | x p l Hx Hl IH]; intros Hsame.
  - constructor. rewrite Hsame; [exact Hroot | now left].
  - constructor 2 with (p := p).
    + rewrite Hsame; [exact Hx | apply in_or_app; right; now left].
    + apply IH. intros y Hy. apply Hsame, in_or_app. now left.
Qed.

Lemma lineage_keys P x l :
  lineage P start x l -> forall y, In y l -> In y (Dict.keys P).
Proof.
  induction 1 as [Hroot | x p l Hx Hl IH]; intros y Hy.
  - destruct Hy as [<- | []].
    apply (mem_true_iff P start). unfold Dict.mem. now rewrite Hroot.
  - apply in_app_iff in Hy as [Hy | [<- | []]]; [now apply IH|].
    apply (mem_true_iff P x). unfold Dict.mem. now rewrite Hx.
Qed.

Lemma lineage_shape P x l :
  lineage P start x l -> (exists r, l = start :: r) /\ last l start = x.
Proof.
  induction 1 as [Hroot | x p l Hx Hl [[r ->] _]].
  - split; [now exists [] | reflexivity].
  - split; [now exists (r ++ [x]) | apply last_last].
Qed.

Lemma climb_lineage P x l :
  lineage P start x l ->
  forall fuel path,
    List.length l <= S fuel ->
    App.climb fuel P x (path ++ [x]) = Ret (path ++ rev l).
Proof.
  induction 1 as [Hroot | x p l Hx Hl IH]; intros fuel path Hlen.
  - destruct fuel; cbn; now rewrite Hroot.
  - rewrite length_app in Hlen. cbn in Hlen.
    destruct (lineage_shape _ _ _ Hl) as [[r Er] _].
    destruct fuel as [|fuel]; [subst l; cbn in Hlen; lia|].
    cbn [App.climb]. rewrite Hx. rewrite IH by lia.
    rewrite rev_app_distr, <- app_assoc. reflexivity.
Qed.

Lemma reconstruct_lineage P goal l :
  lineage P start goal l -> NoDup l ->
  App._reconstruct_path P start goal = Ret l.
Proof.
  intros Hl Hnd. unfold App._reconstruct_path.
  assert (Hm : Dict.mem goal P = true).
  { apply mem_true_iff. apply (lineage_keys _ _ _ Hl).
    destruct (lineage_shape _ _ _ Hl) as [[r ->] Hlast].
    rewrite <- Hlast. apply last_in. discriminate. }
  rewrite Hm. cbn [negb].
  pose proof (climb_lineage _ _ _ Hl (List.length P) []) as Hc.
  cbn [app] in Hc. rewrite Hc.
  - cbn [bind]. rewrite rev_involutive.
    destruct (lineage_shape _ _ _ Hl) as [[r ->] _].
    now rewrite String.eqb_refl.
  - transitivity (List.length (Dict.keys P)).
    + apply NoDup_incl_length; [exact Hnd|]. intros y. apply (lineage_keys _ _ _ Hl).
    + unfold Dict.keys. rewrite length_map. lia.
Qed.

Lemma reconstruct_absent P goal :
  Dict.get P goal = None -> App._reconstruct_path P start goal = Ret [].
Proof.
  intros E. unfold App._reconstruct_path, Dict.mem. now rewrite E.
Qed.

End Lineage.

(** ** Sorted queues *)

Lemma ssorted_app (R : string -> string -> Prop) (l1 l2 : list string) :
  StronglySorted R l1 -> StronglySorted R l2 ->
  (forall x y, In x l1 -> In y l2 -> R x y) ->
  StronglySorted R (l1 ++ l2).
Proof.
  induction 1 as [|a l1 Hs IH Hf]; intros H2 Hx; [exact H2|].
  cbn. constructor.
  - apply IH; [exact H2|]. intros x y Hi Hj. apply Hx; [now right | exact Hj].
  - apply Forall_forall. intros y Hy. apply in_app_iff in Hy as [Hy|Hy].
    + rewrite Forall_forall in Hf. now apply Hf.
    + apply Hx; [now left | exact Hy].
Qed.

Lemma ssorted_all (R : string -> string -> Prop) (l : list string) :
  (forall x y, In x l -> In y l -> R x y) -> StronglySorted R l.
Proof.
  induction l as [|a l IH]; intros H; constructor.
  - apply IH. intros x y Hx Hy. apply H; now right.
  - apply Forall_forall. intros y Hy. apply H; [now left | now right].
Qed.

Lemma ssorted_ext (R R' : string -> string -> Prop) (l : list string) :
  StronglySorted R l ->
  (forall x y, In x l -> In y l -> R x y -> R' x y) ->
  StronglySorted R' l.
Proof.
  induction 1 as [|a l Hs IH Hf]; intros H; constructor.
  - apply IH. intros x y Hx Hy. apply H; now right.
  - rewrite Forall_forall in *. intros y Hy.
    apply H; [now left | now right | now apply Hf].
Qed.

(** ** The inner loop of BFS *)

Section BfsScan.
Variables (g : Graph.t) (acc : bool) (u : string).

Lemma bfs_scan_spec (ws : list string) (s : App.Bfs.vars) :
  exists new,
    App.Bfs.q (App.Bfs.scan g acc u ws s) = App.Bfs.q s ++ new
    /\ App.Bfs.visited_order (App.Bfs.scan g acc u ws s)
       = App.Bfs.visited_order s
    /\ (forall x, In x (App.Bfs.visited (App.Bfs.scan g acc u ws s))
                  <-> In x (App.Bfs.visited s) \/ In x new)
    /\ NoDup new
    /\ (forall x, In x new ->
          ~ In x (App.Bfs.visited s) /\ In x ws /\ traversable g acc u x)
    /\ (forall x, In x ws -> traversable g acc u x ->
          In x (App.Bfs.visited s) \/ In x new)
    /\ (forall x, Dict.get (App.Bfs.parent (App.Bfs.scan g acc u ws s)) x
                  = if in_dec string_dec x new then Some (Some u)
                    else Dict.get (App.Bfs.parent s) x).
Proof.
  revert s. induction ws as [|w ws IH]; intros s.
  - exists []. cbn. split; [now rewrite app_nil_r|]. split; [reflexivity|].
    split; [tauto|]. split; [constructor|]. repeat split; tauto.
  - cbn [App.Bfs.scan].
    destruct (App.blocked acc (Graph.get_edge g u w)) eqn:Eb.
    { destruct (IH s) as (new & Hq & Hvo & Hv & Hnd & Hnew & Hcov & Hpar).
      exists new. do 4 (split; [assumption|]). split; [|split; [|exact Hpar]].
      - intros x Hx. destruct (Hnew x Hx) as (Hn & Hi & Ht).
        split; [exact Hn|]. split; [now right | exact Ht].
      - intros x [<- | Hx] Ht; [|now apply Hcov].
        apply blocked_false_iff in Ht. congruence. }
    destruct (set_mem string_dec w (App.Bfs.visited s)) eqn:Em.
    { destruct (IH s) as (new & Hq & Hvo & Hv & Hnd & Hnew & Hcov & Hpar).
      exists new. do 4 (split; [assumption|]). split; [|split; [|exact Hpar]].
      - intros x Hx. destruct (Hnew x Hx) as (Hn & Hi & Ht).
        split; [exact Hn|]. split; [now right | exact Ht].
      - intros x [<- | Hx] Ht; [|now apply Hcov].
        left. now apply set_mem_correct1 in Em. }
    apply set_mem_complete1 in Em.
    match goal with |- context [App.Bfs.scan g acc u ws ?s1] =>
      destruct (IH s1) as (new & Hq & Hvo & Hv & Hnd & Hnew & Hcov & Hpar)
    end.
    cbn [App.Bfs.q App.Bfs.visited App.Bfs.visited_order App.Bfs.parent] in *.
    assert (Hw : ~ In w new).
    { intros Hin. apply Hnew in Hin as [Hn _]. apply Hn, set_add_intro2.
      reflexivity. }
    exists (w :: new). split; [|split; [|split; [|split; [|split; [|split]]]]].
    + rewrite Hq, <- app_assoc. reflexivity.
    + exact Hvo.
    + intros x. rewrite Hv, set_add_iff. cbn. intuition.
    + constructor; assumption.
    + intros x [<- | Hx].
      * split; [exact Em|]. split; [now left|]. now apply blocked_false_iff.
      * destruct (Hnew x Hx) as (Hn & Hi & Ht). split; [|split; [now right | exact Ht]].
        intros Hc. apply Hn, set_add_intro1, Hc.
    + intros x [<- | Hx] Ht; [right; now left|].
      destruct (Hcov x Hx Ht) as [Hc | Hc]; [|right; now right].
      apply set_add_iff in Hc as [-> | Hc]; [right; now left | now left].
    + intros x. rewrite Hpar.
      destruct (in_dec string_dec x new) as [Hi|Hi];
        destruct (in_dec string_dec x (w :: new)) as [Hj|Hj]; try reflexivity.
      * exfalso. apply Hj. now right.
      * destruct Hj as [<- | Hj]; [|contradiction].
        apply (get_set_same (App.Bfs.parent s) w (Some u)).
      * apply (get_set_other (App.Bfs.parent s) w x (Some u)).
        intros ->. apply Hj. now left.
Qed.

End BfsScan.

(** ** The loop of BFS *)

Section Bfs.
Variables (g : Graph.t) (start goal : string) (acc : bool).

Lemma bfs_inv_init : bfs_inv g start goal acc (fun _ => 0) (App.Bfs.init start).
Proof.
  constructor; cbn.
  - tauto.
  - constructor; [intros [] | constructor].
  - now exists [].
  - intros x Hx. destruct (String.eqb_spec x start) as [->|_]; [|reflexivity].
    exfalso. apply Hx. now left.
  - intros x [<- | []]. exists [start]. split; [|reflexivity].
    split; [|split; [apply route_refl | split]].
    + constructor. cbn. now rewrite String.eqb_refl.
    + intros y Hy. exact Hy.
    + constructor; [intros [] | constructor].
  - constructor; constructor.
  - intros x y [<- | []] [<- | []]. lia.
  - intros x y [].
  - intros x y [].
  - intros [].
  - intros x [<- | []]. now left.
  - reflexivity.
Qed.

Lemma bfs_inv_step (d : string -> nat) (u : string) (Q' : list string)
    (P : Dict.t string (option string)) (V E : list string) :
  bfs_inv g start goal acc d (App.Bfs.mk (u :: Q') P V E) ->
  u <> goal ->
  exists d',
    bfs_inv g start goal acc d'
      (App.Bfs.scan g acc u (Graph.neighbors g u acc)
         (App.Bfs.mk Q' P V (E ++ [u]))).
Proof.
  intros [Hsplit Hnd Hhead Hkeys Htree Hsorted Hspan Hdone Hexp Hgoal Huniv Hstart] Hug.
  cbn [App.Bfs.q App.Bfs.visited App.Bfs.visited_order App.Bfs.parent] in *.
  destruct (bfs_scan_spec g acc u (Graph.neighbors g u acc)
              (App.Bfs.mk Q' P V (E ++ [u])))
    as (new & Hq & Hvo & Hv & Hndn & Hnew & Hcov & Hpar).
  cbn [App.Bfs.q App.Bfs.visited App.Bfs.visited_order App.Bfs.parent] in *.
  set (d' := fun x => if in_dec string_dec x new then S (d u) else d x).
  assert (F1 : forall x, In x V -> d' x = d x).
  { intros x Hx. unfold d'. destruct (in_dec string_dec x new) as [Hi|]; [|reflexivity].
    exfalso. now apply (Hnew x Hi). }
  assert (F2 : forall x, In x new -> d' x = S (d u)).
  { intros x Hx. unfold d'. destruct (in_dec string_dec x new); [reflexivity|contradiction]. }
  assert (HuV : In u V) by (apply Hsplit, in_or_app; right; now left).
  assert (HQV : forall x, In x Q' -> In x V).
  { intros x Hx. apply Hsplit, in_or_app. right. now right. }
  assert (HEV : forall x, In x E -> In x V).
  { intros x Hx. apply Hsplit, in_or_app. now left. }
  assert (Humin : forall y, In y Q' -> d u <= d y).
  { inversion Hsorted as [|? ? _ Hf]; subst. rewrite Forall_forall in Hf. exact Hf. }
  assert (Hsq : StronglySorted (fun x y => d x <= d y) Q')
    by (now inversion Hsorted).
  exists d'. constructor; rewrite ?Hq, ?Hvo.
  - (* split *)
    intros x. rewrite Hv, Hsplit, !in_app_iff. cbn. tauto.
  - (* nodup *)
    replace ((E ++ [u]) ++ Q' ++ new) with ((E ++ u :: Q') ++ new)
      by (rewrite <- !app_assoc; reflexivity).
    apply NoDup_app; [exact Hnd | exact Hndn |].
    intros x Hx Hx'. apply (Hnew x Hx'). now apply Hsplit.
  - (* head *)
    destruct Hhead as [r Hr].
    exists (r ++ new).
    replace ((E ++ [u]) ++ Q' ++ new) with ((E ++ u :: Q') ++ new)
      by (rewrite <- !app_assoc; reflexivity).
    now rewrite Hr.
  - (* keys *)
    intros x Hx. rewrite Hpar.
    destruct (in_dec string_dec x new) as [Hi|Hi].
    + exfalso. apply Hx, Hv. now right.
    + apply Hkeys. intros Hc. apply Hx, Hv. now left.
  - (* tree *)
    intros x Hx. apply Hv in Hx as [Hx | Hx].
    + destruct (Htree x Hx) as (l & (Hlin & Hroute & Hincl & Hndl) & Hlen).
      exists l. split; [|now rewrite F1].
      split; [|split; [exact Hroute | split; [|exact Hndl]]].
      * apply lineage_frame with (P := P); [exact Hlin|].
        intros y Hy. rewrite Hpar.
        destruct (in_dec string_dec y new) as [Hi|]; [|reflexivity].
        exfalso. apply (Hnew y Hi). now apply Hincl.
      * intros y Hy. apply Hv. left. now apply Hincl.
    + destruct (Htree u HuV) as (l & (Hlin & Hroute & Hincl & Hndl) & Hlen).
      destruct (Hnew x Hx) as (HxV & _ & Hux).
      exists (l ++ [x]). split; [|rewrite length_app, F2 by exact Hx; cbn; lia].
      split; [|split; [|split]].
      * constructor 2 with (p := u).
        -- rewrite Hpar. destruct (in_dec string_dec x new); [reflexivity|contradiction].
        -- apply lineage_frame with (P := P); [exact Hlin|].
           intros y Hy. rewrite Hpar.
           destruct (in_dec string_dec y new) as [Hi|]; [|reflexivity].
           exfalso. apply (Hnew y Hi). now apply Hincl.
      * apply route_snoc with (y := u); assumption.
      * intros y Hy. apply Hv. apply in_app_iff in Hy as [Hy | [<- | []]].
        -- left. now apply Hincl.
        -- now right.
      * apply NoDup_app; [exact Hndl | constructor; [intros [] | constructor] |].
        intros y Hy [<- | []]. apply HxV. now apply Hincl.
  - (* sorted *)
    apply ssorted_app.
    + apply ssorted_ext with (R := fun x y => d x <= d y); [exact Hsq|].
      intros x y Hx Hy Hle. rewrite !F1 by now apply HQV. exact Hle.
    + apply ssorted_all. intros x y Hx Hy. rewrite !F2 by assumption. lia.
    + intros x y Hx Hy. rewrite (F1 x) by now apply HQV.
      rewrite (F2 y) by exact Hy.
      assert (d x <= S (d u)) by (apply Hspan; [now left | now right]). lia.
  - (* span *)
    intros x y Hx Hy.
    apply in_app_iff in Hx as [Hx|Hx]; apply in_app_iff in Hy as [Hy|Hy].
    + rewrite !F1 by now apply HQV. apply Hspan; now right.
    + rewrite (F1 x) by now apply HQV. rewrite (F2 y) by exact Hy.
      specialize (Humin x Hx). lia.
    + rewrite (F1 y) by now apply HQV. rewrite (F2 x) by exact Hx.
      assert (d y <= S (d u)) by (apply Hspan; [now left | now right]). lia.
    + rewrite !F2 by assumption. lia.
  - (* done_le *)
    intros x y Hx Hy.
    assert (Hxu : d' x <= d u).
    { apply in_app_iff in Hx as [Hx | [<- | []]].
      - rewrite F1 by now apply HEV. apply Hdone; [exact Hx | now left].
      - rewrite F1 by exact HuV. lia. }
    apply in_app_iff in Hy as [Hy|Hy].
    + rewrite (F1 y) by now apply HQV. specialize (Humin y Hy). lia.
    + rewrite (F2 y) by exact Hy. lia.
  - (* expanded *)
    intros x y Hx Hxy. apply in_app_iff in Hx as [Hx | [<- | []]].
    + destruct (Hexp x y Hx Hxy) as [HyV Hle]. split; [apply Hv; now left|].
      rewrite (F1 y) by exact HyV. rewrite (F1 x) by now apply HEV. exact Hle.
    + rewrite (F1 u) by exact HuV.
      destruct (Hcov y (traversable_neighbor _ _ _ _ Hxy) Hxy) as [HyV | Hyn].
      * split; [apply Hv; now left|]. rewrite (F1 y) by exact HyV.
        apply Hsplit, in_app_iff in HyV as [HyE | HyQ].
        -- assert (d y <= d u) by (apply Hdone; [exact HyE | now left]). lia.
        -- apply Hspan; [now left | exact HyQ].
      * split; [apply Hv; now right|]. rewrite (F2 y) by exact Hyn. lia.
  - (* goal *)
    intros Hc. apply in_app_iff in Hc as [Hc | [<- | []]]; [now apply Hgoal | congruence].
  - (* univ *)
    intros x Hx. apply Hv in Hx as [Hx | Hx]; [now apply Huniv|].
    right. apply neighbors_endpoints with (acc := acc) (a := u). now apply (Hnew x Hx).
  - (* start *)
    rewrite F1; [exact Hstart|]. apply Hsplit.
    destruct Hhead as [r ->]. now left.
Qed.

(** Enough fuel: with the invariant, the loop ends within the fuel that is
    left once every node of the universe has been taken from the queue. *)
Lemma bfs_loop_exit (fuel : nat) :
  forall (d : string -> nat) (s : App.Bfs.vars),
    bfs_inv g start goal acc d s ->
    App.fuel_of g <= fuel + List.length (App.Bfs.visited_order s) ->
    exists s', App.Bfs.loop fuel g goal acc s = Ret s'
               /\ bfs_exit g start goal acc s'.
Proof.
  induction fuel as [|fuel IH]; intros d s Hinv Hfuel.
  - destruct s as [Q P V E]. destruct Q as [|u Q'].
    + exists (App.Bfs.mk [] P V E). split; [reflexivity|].
      now apply bfs_exhausted with (d := d).
    + exfalso. cbn in Hfuel.
      pose proof (bi_nodup _ _ _ _ _ _ Hinv) as Hnd.
      pose proof (bi_univ _ _ _ _ _ _ Hinv) as Hun.
      pose proof (bi_split _ _ _ _ _ _ Hinv) as Hsp.
      cbn in Hnd, Hun, Hsp.
      assert (Hlen : List.length (E ++ u :: Q') <= List.length (start :: endpoints g)).
      { apply NoDup_incl_length; [exact Hnd|]. intros x Hx. now apply Hun, Hsp. }
      rewrite length_app in Hlen. cbn in Hlen. rewrite endpoints_length in Hlen.
      unfold App.fuel_of in Hfuel. lia.
  - destruct s as [Q P V E]. destruct Q as [|u Q'].
    + exists (App.Bfs.mk [] P V E). split; [reflexivity|].
      now apply bfs_exhausted with (d := d).
    + cbn [App.Bfs.loop App.Bfs.q App.Bfs.parent App.Bfs.visited
             App.Bfs.visited_order].
      destruct (String.eqb_spec u goal) as [->|Hug].
      * eexists. split; [reflexivity|].
        now apply bfs_break with (d := d) (s0 := App.Bfs.mk (goal :: Q') P V E)
                                 (rest := Q').
      * destruct (bfs_inv_step d u Q' P V E Hinv Hug) as [d' Hinv'].
        apply IH with (d := d'); [exact Hinv'|].
        destruct (bfs_scan_spec g acc u (Graph.neighbors g u acc)
                    (App.Bfs.mk Q' P V (E ++ [u]))) as (new & _ & -> & _).
        cbn in *. rewrite length_app. cbn. lia.
Qed.

End Bfs.

Lemma stops_at_last (goal : string) (pre : list string) :
  NoDup (pre ++ [goal]) -> stops_at goal (pre ++ [goal]).
Proof.
  intros Hnd pre' post E.
  destruct post as [|z post] using rev_ind; [reflexivity|]. exfalso.
  clear IHpost. rewrite E in Hnd.
  apply NoDup_remove_2 in Hnd. apply Hnd.
  change (pre' ++ goal :: post ++ [z]) with (pre' ++ (goal :: post) ++ [z]) in E.
  rewrite app_assoc in E. apply app_inj_tail in E as [_ <-].
  apply in_or_app. right. apply in_or_app. right. now left.
Qed.

Lemma stops_at_absent (goal : string) (l : list string) :
  ~ In goal l -> stops_at goal l.
Proof.
  intros Hn pre post ->. exfalso. apply Hn, in_or_app. right. now left.
Qed.

(** ** What [_bfs] returns *)

Section BfsOutcome.
Variables (g : Graph.t) (start goal : string) (acc : bool).

(** Everything a path from [start] reaches is visited, or lies at least as
    deep as the head of the queue. *)
Lemma bfs_frontier (d : string -> nat) (s : App.Bfs.vars) (u : string)
    (rest : list string) :
  bfs_inv g start goal acc d s -> App.Bfs.q s = u :: rest ->
  forall x p, route g acc start x p ->
    (In x (App.Bfs.visited s) /\ d x < List.length p) \/ d u < List.length p.
Proof.
  intros [Hsplit Hnd Hhead Hkeys Htree Hsorted Hspan Hdone Hexp Hgoal Huniv Hstart] Hq.
  rewrite Hq in *.
  apply route_snoc_ind.
  - left. split; [|cbn; lia].
    apply Hsplit. destruct Hhead as [r ->]. now left.
  - intros y x p _ [[HyV Hd] | Hd] Hyx; rewrite length_app; cbn.
    + apply Hsplit, in_app_iff in HyV as [HyE | HyQ].
      * destruct (Hexp y x HyE Hyx) as [HxV Hle]. left. split; [exact HxV | lia].
      * right. enough (d u <= d y) by lia.
        destruct HyQ as [<- | HyQ]; [lia|].
        inversion Hsorted as [|? ? _ Hf]; subst.
        rewrite Forall_forall in Hf. now apply Hf.
    + right. lia.
Qed.

(** With the queue exhausted, the visited nodes are exactly the reachable
    ones. *)
Lemma bfs_exhausted_reach (d : string -> nat) (s : App.Bfs.vars) :
  bfs_inv g start goal acc d s -> App.Bfs.q s = [] ->
  forall x, In x (App.Bfs.visited_order s) <-> reachable g acc start x.
Proof.
  intros [Hsplit Hnd Hhead Hkeys Htree Hsorted Hspan Hdone Hexp Hgoal Huniv Hstart] Hq.
  rewrite Hq, app_nil_r in *. intros x. split.
  - intros Hx. apply Hsplit in Hx.
    destruct (Htree x Hx) as (l & (_ & Hr & _) & _). now exists l.
  - intros [p Hp]. revert x p Hp. apply route_snoc_ind.
    + destruct Hhead as [r ->]. now left.
    + intros y x p _ Hy Hyx. apply Hsplit. now apply (Hexp y x Hy Hyx).
Qed.

Lemma bfs_outcome :
  exists order path,
    App._bfs g start goal acc = Ret (order, path)
    /\ NoDup order
    /\ (exists r, order = start :: r)
    /\ stops_at goal order
    /\ ((path = []
         /\ ~ reachable g acc start goal
         /\ forall x, In x order <-> reachable g acc start x)
        \/ (route g acc start goal path
            /\ forall p, route g acc start goal p ->
                         List.length path <= List.length p)).
Proof.
  destruct (bfs_loop_exit g start goal acc (App.fuel_of g) (fun _ => 0)
              (App.Bfs.init start) (bfs_inv_init g start goal acc))
    as (s' & Hloop & Hexit); [apply Nat.le_add_r|].
  unfold App._bfs. rewrite Hloop. cbn [bind].
  destruct Hexit as [d Hinv Hq | d s0 rest Hinv Hq ->].
  - (* the queue ran empty *)
    pose proof (bfs_exhausted_reach d s' Hinv Hq) as Hreach.
    destruct Hinv as [Hsplit Hnd Hhead Hkeys Htree Hsorted Hspan Hdone Hexp Hgoal Huniv Hstart].
    rewrite Hq, app_nil_r in *.
    rewrite reconstruct_absent
      by (apply Hkeys; intros Hc; now apply Hgoal, Hsplit).
    cbn [bind]. exists (App.Bfs.visited_order s'), [].
    split; [reflexivity|]. split; [exact Hnd|]. split; [exact Hhead|].
    split; [now apply stops_at_absent|]. left.
    split; [reflexivity|]. split; [|exact Hreach].
    intros Hc. now apply Hgoal, Hreach.
  - (* the goal was taken from the queue *)
    pose proof (bfs_frontier d s0 goal rest Hinv Hq) as Hfront.
    destruct Hinv as [Hsplit Hnd Hhead Hkeys Htree Hsorted Hspan Hdone Hexp Hgoal Huniv Hstart].
    rewrite Hq in *. cbn [App.Bfs.parent App.Bfs.visited_order].
    assert (HgV : In goal (App.Bfs.visited s0))
      by (apply Hsplit, in_or_app; right; now left).
    destruct (Htree goal HgV) as (l & (Hlin & Hroute & Hincl & Hndl) & Hlen).
    rewrite (reconstruct_lineage start _ goal l Hlin Hndl). cbn [bind].
    exists (App.Bfs.visited_order s0 ++ [goal]), l.
    assert (Hnd' : NoDup (App.Bfs.visited_order s0 ++ [goal])).
    { apply NoDup_app_remove_r with (l' := rest).
      now rewrite <- app_assoc. }
    split; [reflexivity|]. split; [exact Hnd'|]. split.
    { destruct Hhead as [r Hr].
      destruct (App.Bfs.visited_order s0) as [|a E].
      - cbn in Hr. injection Hr as -> _. now exists [].
      - cbn in Hr. injection Hr as -> _. now exists (E ++ [goal]). }
    split; [now apply stops_at_last|]. right.
    split; [exact Hroute|].
    intros p Hp. rewrite Hlen.
    destruct (Hfront goal p Hp) as [[_ Hd] | Hd]; lia.
Qed.

End BfsOutcome.

(** ** The recursion of DFS *)

Section Dfs.
Variables (g : Graph.t) (start goal : string) (acc : bool).

Lemma dfs_grows_refl (s : App.Dfs.vars) : dfs_grows s s.
Proof.
  split; [exists []; now rewrite app_nil_r | intros H; now split].
Qed.

Lemma dfs_grows_trans (s1 s2 s3 : App.Dfs.vars) :
  dfs_grows s1 s2 -> dfs_grows s2 s3 -> dfs_grows s1 s3.
Proof.
  intros [[e1 H1] F1] [[e2 H2] F2]. split.
  - exists (e1 ++ e2). now rewrite H2, H1, app_assoc.
  - intros Hf. destruct (F1 Hf) as [Hf2 E1]. destruct (F2 Hf2) as [Hf3 E2].
    split; [exact Hf3 | congruence].
Qed.

Lemma dfs_grows_found (s s' : App.Dfs.vars) :
  dfs_grows s s' -> App.Dfs.found s' = false -> App.Dfs.found s = false.
Proof.
  intros [_ F] Hf. destruct (App.Dfs.found s); [|reflexivity].
  destruct (F eq_refl). congruence.
Qed.

Lemma dfs_visited_mono (s s' : App.Dfs.vars) :
  dfs_inv g start goal acc s -> dfs_inv g start goal acc s' ->
  dfs_grows s s' ->
  incl (App.Dfs.visited s) (App.Dfs.visited s').
Proof.
  intros Hi Hi' [[ext He] _] x Hx.
  apply (di_same _ _ _ _ _ Hi'). rewrite He. apply in_or_app. left.
  now apply (di_same _ _ _ _ _ Hi).
Qed.

(** [visited.add(u); visited_order.append(u)], and the goal test. *)
Lemma dfs_inv_visit (s : App.Dfs.vars) (u : string) (b : bool) :
  dfs_inv g start goal acc s ->
  App.Dfs.found s = false ->
  dfs_pre g start acc u s ->
  (if b then u = goal else u <> goal) ->
  dfs_inv g start goal acc
    (App.Dfs.mk (set_add string_dec u (App.Dfs.visited s))
       (App.Dfs.visited_order s ++ [u]) (App.Dfs.parent s) b).
Proof.
  intros [Hsame Hnd Hhead Htree Hfound Huniv] Hf
    (HuV & Huu & Hfirst & l0 & Hlin & Hroute & Hincl & Hndl) Hb.
  rewrite Hf in Hfound.
  constructor; cbn [App.Dfs.visited App.Dfs.visited_order App.Dfs.parent
                     App.Dfs.found].
  - intros x. rewrite set_add_iff, in_app_iff, Hsame. cbn. intuition.
  - apply NoDup_app; [exact Hnd | constructor; [intros [] | constructor] |].
    intros x Hx [<- | []]. now apply HuV, Hsame.
  - right. destruct Hhead as [E | [r E]]; rewrite E.
    + rewrite (Hfirst E). now exists [].
    + now exists (r ++ [u]).
  - intros x Hx. apply set_add_iff in Hx as [-> | Hx].
    + exists (l0 ++ [u]). split; [exact Hlin|]. split; [exact Hroute|]. split.
      * intros y Hy. apply set_add_iff.
        apply in_app_iff in Hy as [Hy | [<- | []]]; [right; now apply Hincl | now left].
      * apply NoDup_app; [exact Hndl | constructor; [intros [] | constructor] |].
        intros y Hy [<- | []]. now apply HuV, Hincl.
    + destruct (Htree x Hx) as (l & Hl & Hr & Hi & Hn).
      exists l. split; [exact Hl|]. split; [exact Hr|]. split; [|exact Hn].
      intros y Hy. apply set_add_iff. right. now apply Hi.
  - destruct b.
    + subst u. now exists (App.Dfs.visited_order s).
    + intros Hc. apply in_app_iff in Hc as [Hc | [Hc | []]]; [now apply Hfound | congruence].
  - intros x Hx. apply set_add_iff in Hx as [-> | Hx]; [exact Huu | now apply Huniv].
Qed.

(** [parent[w] = u] for a [w] not visited yet. *)
Lemma dfs_inv_assign (s : App.Dfs.vars) (u w : string) :
  dfs_inv g start goal acc s ->
  ~ In w (App.Dfs.visited s) ->
  dfs_inv g start goal acc
    (App.Dfs.mk (App.Dfs.visited s) (App.Dfs.visited_order s)
       (Dict.set (App.Dfs.parent s) w (Some u)) (App.Dfs.found s)).
Proof.
  intros [Hsame Hnd Hhead Htree Hfound Huniv] Hw.
  constructor; cbn [App.Dfs.visited App.Dfs.visited_order App.Dfs.parent
                     App.Dfs.found]; try assumption.
  intros x Hx. destruct (Htree x Hx) as (l & Hl & Hr & Hi & Hn).
  exists l. split; [|split; [exact Hr | split; [exact Hi | exact Hn]]].
  apply lineage_frame with (P := App.Dfs.parent s); [exact Hl|].
  intros y Hy. apply (get_set_other (App.Dfs.parent s) w y (Some u)).
  intros ->. now apply Hw, Hi.
Qed.

Lemma dfs_pre_child (s : App.Dfs.vars) (u w : string) :
  dfs_inv g start goal acc s ->
  In u (App.Dfs.visited s) ->
  ~ In w (App.Dfs.visited s) ->
  traversable g acc u w ->
  dfs_pre g start acc w
    (App.Dfs.mk (App.Dfs.visited s) (App.Dfs.visited_order s)
       (Dict.set (App.Dfs.parent s) w (Some u)) (App.Dfs.found s)).
Proof.
  intros [Hsame Hnd Hhead Htree Hfound Huniv] Hu Hw Huw.
  unfold dfs_pre. cbn [App.Dfs.visited App.Dfs.visited_order App.Dfs.parent].
  split; [exact Hw|]. split.
  { right. apply neighbors_endpoints with (acc := acc) (a := u).
    now apply traversable_neighbor. }
  split.
  { intros E. apply Hsame in Hu. rewrite E in Hu. destruct Hu. }
  destruct (Htree u Hu) as (l & Hl & Hr & Hi & Hn).
  exists l. split; [|split; [|split; assumption]].
  - constructor 2 with (p := u).
    + apply (get_set_same (App.Dfs.parent s) w (Some u)).
    + apply lineage_frame with (P := App.Dfs.parent s); [exact Hl|].
      intros y Hy. apply (get_set_other (App.Dfs.parent s) w y (Some u)).
      intros ->. now apply Hw, Hi.
  - now apply route_snoc with (y := u).
Qed.

Section Scan.
Variables (n : nat) (visit : string -> App.Dfs.vars -> outcome App.Dfs.vars).
Hypothesis Hvisit : visit_ok g start goal acc n visit.
Variable u : string.

Lemma dfs_scan_spec (ws : list string) :
  forall s,
    dfs_inv g start goal acc s ->
    In u (App.Dfs.visited s) ->
    App.fuel_of g <= n + List.length (App.Dfs.visited_order s) ->
    exists s',
      App.Dfs.scan visit g acc u ws s = Ret s'
      /\ dfs_inv g start goal acc s'
      /\ dfs_grows s s'
      /\ (App.Dfs.found s' = false ->
          (forall w, In w ws -> traversable g acc u w ->
                     In w (App.Dfs.visited s'))
          /\ dfs_closed g acc s s').
Proof.
  induction ws as [|w ws IH]; intros s Hinv Hu Hfuel.
  - exists s. split; [reflexivity|]. split; [exact Hinv|].
    split; [apply dfs_grows_refl|]. intros _. split; [intros w []|].
    intros x Hx Hx'. contradiction.
  - cbn [App.Dfs.scan].
    destruct (App.blocked acc (Graph.get_edge g u w)) eqn:Eb.
    { destruct (IH s Hinv Hu Hfuel) as (s' & Hrun & Hinv' & Hgr & Hpost).
      exists s'. do 3 (split; [assumption|]). intros Hf.
      destruct (Hpost Hf) as [Hcov Hcl]. split; [|exact Hcl].
      intros x [<- | Hx] Ht; [|now apply Hcov].
      apply blocked_false_iff in Ht. congruence. }
    destruct (set_mem string_dec w (App.Dfs.visited s)) eqn:Em.
    { destruct (IH s Hinv Hu Hfuel) as (s' & Hrun & Hinv' & Hgr & Hpost).
      exists s'. do 3 (split; [assumption|]). intros Hf.
      destruct (Hpost Hf) as [Hcov Hcl]. split; [|exact Hcl].
      intros x [<- | Hx] Ht; [|now apply Hcov].
      apply (dfs_visited_mono s s' Hinv Hinv' Hgr).
      now apply set_mem_correct1 in Em. }
    apply set_mem_complete1 in Em.
    apply blocked_false_iff in Eb.
    set (s1 := App.Dfs.mk (App.Dfs.visited s) (App.Dfs.visited_order s)
                 (Dict.set (App.Dfs.parent s) w (Some u)) (App.Dfs.found s)).
    assert (Hinv1 : dfs_inv g start goal acc s1) by now apply dfs_inv_assign.
    destruct (Hvisit w s1 Hinv1) as (s2 & Hrun2 & Hinv2 & Hgr2 & Hin2 & Hcl2).
    { intros _. now apply dfs_pre_child. }
    { exact Hfuel. }
    rewrite Hrun2. cbn [bind].
    assert (Hmono2 : incl (App.Dfs.visited s) (App.Dfs.visited s2))
      by apply (dfs_visited_mono s1 s2 Hinv1 Hinv2 Hgr2).
    destruct (IH s2 Hinv2) as (s3 & Hrun3 & Hinv3 & Hgr3 & Hpost3).
    { now apply Hmono2. }
    { destruct Hgr2 as [[ext He] _]. rewrite He, length_app.
      cbn [App.Dfs.visited_order s1]. lia. }
    assert (Hmono3 : incl (App.Dfs.visited s2) (App.Dfs.visited s3))
      by apply (dfs_visited_mono s2 s3 Hinv2 Hinv3 Hgr3).
    exists s3. split; [exact Hrun3|]. split; [exact Hinv3|]. split.
    { apply (dfs_grows_trans s1 s2 s3 Hgr2) in Hgr3. exact Hgr3. }
    intros Hf3.
    pose proof (dfs_grows_found _ _ Hgr3 Hf3) as Hf2.
    pose proof (dfs_grows_found _ _ Hgr2 Hf2) as Hf1.
    destruct (Hpost3 Hf3) as [Hcov3 Hcl3]. split.
    + intros x [<- | Hx] Ht; [|now apply Hcov3].
      apply Hmono3, Hin2, Hf1.
    + intros x Hx Hnx y Hxy.
      destruct (in_dec string_dec x (App.Dfs.visited s2)) as [Hx2 | Hx2].
      * apply Hmono3. now apply (Hcl2 Hf2 x Hx2 Hnx y Hxy).
      * now apply (Hcl3 x Hx Hx2 y Hxy).
Qed.

End Scan.

Lemma dfs_rec_ok (fuel : nat) :
  visit_ok g start goal acc fuel (App.Dfs.rec fuel g goal acc).
Proof.
  induction fuel as [|fuel IH]; intros u s Hinv Hpre Hfuel.
  - destruct (App.Dfs.found s) eqn:Hf.
    + exists s. cbn. rewrite Hf. split; [reflexivity|]. split; [exact Hinv|].
      split; [apply dfs_grows_refl|]. split; [discriminate | congruence].
    + exfalso. destruct (Hpre eq_refl) as (HuV & Huu & _).
      destruct Hinv as [Hsame Hnd Hhead Htree Hfound Huniv].
      assert (Hlen : List.length (u :: App.Dfs.visited_order s)
                     <= List.length (start :: endpoints g)).
      { apply NoDup_incl_length.
        - constructor; [intros Hc; now apply HuV, Hsame | exact Hnd].
        - intros x [<- | Hx]; [exact Huu | now apply Huniv, Hsame]. }
      cbn in Hlen. rewrite endpoints_length in Hlen.
      unfold App.fuel_of in Hfuel. lia.
  - destruct (App.Dfs.found s) eqn:Hf.
    + exists s. cbn. rewrite Hf. split; [reflexivity|]. split; [exact Hinv|].
      split; [apply dfs_grows_refl|]. split; [discriminate | congruence].
    + specialize (Hpre eq_refl). cbn [App.Dfs.rec]. rewrite Hf.
      cbn [App.Dfs.visited App.Dfs.visited_order App.Dfs.parent App.Dfs.found].
      destruct (String.eqb_spec u goal) as [Hug | Hug].
      * eexists. split; [reflexivity|].
        split; [now apply dfs_inv_visit|]. split.
        { split; [now exists [u] | congruence]. }
        split; [|discriminate]. intros _. apply set_add_intro2. reflexivity.
      * set (s1 := App.Dfs.mk (set_add string_dec u (App.Dfs.visited s))
                     (App.Dfs.visited_order s ++ [u]) (App.Dfs.parent s) false).
        assert (Hinv1 : dfs_inv g start goal acc s1) by now apply dfs_inv_visit.
        destruct (dfs_scan_spec fuel _ IH u (Graph.neighbors g u acc) s1 Hinv1)
          as (s' & Hrun & Hinv' & Hgr & Hpost).
        { apply set_add_intro2. reflexivity. }
        { cbn [s1 App.Dfs.visited_order]. rewrite length_app. cbn. lia. }
        exists s'. split; [exact Hrun|]. split; [exact Hinv'|].
        assert (Hmono : incl (App.Dfs.visited s1) (App.Dfs.visited s'))
          by apply (dfs_visited_mono s1 s' Hinv1 Hinv' Hgr).
        split.
        { split; [|congruence]. destruct Hgr as [[ext He] _].
          exists (u :: ext). rewrite He. cbn [s1 App.Dfs.visited_order].
          now rewrite <- app_assoc. }
        split.
        { intros _. apply Hmono. apply set_add_intro2. reflexivity. }
        intros Hf'. destruct (Hpost Hf') as [Hcov Hcl].
        intros x Hx Hnx y Hxy.
        destruct (in_dec string_dec x (App.Dfs.visited s1)) as [Hx1 | Hx1].
        -- apply set_add_iff in Hx1 as [-> | Hx1]; [|contradiction].
           apply Hcov; [now apply traversable_neighbor | exact Hxy].
        -- now apply (Hcl x Hx Hx1 y Hxy).
Qed.

End Dfs.

(** ** What [_dfs] returns *)

Section DfsOutcome.
Variables (g : Graph.t) (start goal : string) (acc : bool).

Lemma dfs_inv_init : dfs_inv g start goal acc (App.Dfs.init start).
Proof.
  constructor; cbn.
  - tauto.
  - constructor.
  - now left.
  - intros x [].
  - intros [].
  - intros x [].
Qed.

Lemma dfs_pre_init : dfs_pre g start acc start (App.Dfs.init start).
Proof.
  split; [intros []|]. split; [now left|]. split; [reflexivity|].
  exists []. split; [|split; [apply route_refl | split; [intros x [] | constructor]]].
  constructor. cbn. now rewrite String.eqb_refl.
Qed.

Lemma dfs_outcome :
  exists order path,
    App._dfs g start goal acc = Ret (order, path)
    /\ NoDup order
    /\ (exists r, order = start :: r)
    /\ stops_at goal order
    /\ ((path = []
         /\ ~ reachable g acc start goal
         /\ forall x, In x order <-> reachable g acc start x)
        \/ route g acc start goal path).
Proof.
  destruct (dfs_rec_ok g start goal acc (App.fuel_of g) start
              (App.Dfs.init start) dfs_inv_init (fun _ => dfs_pre_init))
    as (s' & Hrun & Hinv & Hgr & Hin & Hcl); [apply Nat.le_add_r|].
  specialize (Hin eq_refl).
  unfold App._dfs. rewrite Hrun. cbn [bind].
  destruct Hinv as [Hsame Hnd Hhead Htree Hfound Huniv].
  assert (Hh : exists r, App.Dfs.visited_order s' = start :: r).
  { destruct Hhead as [E | Hh]; [|exact Hh].
    apply Hsame in Hin. rewrite E in Hin. destruct Hin. }
  destruct (App.Dfs.found s') eqn:Hf.
  - destruct Hfound as [pre Hpre].
    assert (HgV : In goal (App.Dfs.visited s')).
    { apply Hsame. rewrite Hpre. apply in_or_app. right. now left. }
    destruct (Htree goal HgV) as (l & Hlin & Hroute & Hincl & Hndl).
    rewrite (reconstruct_lineage start _ goal l Hlin Hndl). cbn [bind].
    exists (App.Dfs.visited_order s'), l.
    split; [reflexivity|]. split; [exact Hnd|]. split; [exact Hh|].
    split; [|now right].
    rewrite Hpre in *. now apply stops_at_last.
  - cbn [bind]. exists (App.Dfs.visited_order s'), [].
    split; [reflexivity|]. split; [exact Hnd|]. split; [exact Hh|].
    split; [now apply stops_at_absent|]. left.
    assert (Hreach : forall x, In x (App.Dfs.visited_order s')
                               <-> reachable g acc start x).
    { intros x. split.
      - intros Hx. apply Hsame in Hx.
        destruct (Htree x Hx) as (l & _ & Hr & _). now exists l.
      - intros [p Hp]. apply Hsame. revert x p Hp. apply route_snoc_ind.
        + exact Hin.
        + intros y x p _ Hy Hyx.
          apply (Hcl eq_refl y Hy); [intros [] | exact Hyx]. }
    split; [reflexivity|]. split; [|exact Hreach].
    intros Hc. now apply Hfound, Hreach.
Qed.

End DfsOutcome.

(** ** The traversal properties *)

Lemma route_not_nil (g : Graph.t) (acc : bool) (s x : string) (p : list string) :
  route g acc s x p -> p <> [].
Proof. intros [Hh _] ->. discriminate. Qed.

(** C1. When some path over traversable edges leads from [start] to
    [goal], BFS returns a path that is not empty, leads from [start] to
    [goal] over traversable edges and has the fewest edges of all such
    paths; so it has no more edges than a non-empty path DFS returns. *)
Theorem bfs_shortest (g : Graph.t) (start goal : string) (acc : bool) :
  reachable g acc start goal ->
  exists order path,
    App._bfs g start goal acc = Ret (order, path)
    /\ path <> []
    /\ route g acc start goal path
    /\ (forall p, route g acc start goal p -> hops path <= hops p)
    /\ (forall order' path',
          App._dfs g start goal acc = Ret (order', path') ->
          path' <> [] ->
          hops path <= hops path').
Proof.
  intros Hreach.
  destruct (bfs_outcome g start goal acc)
    as (order & path & Hrun & _ & _ & _ & [(_ & Hno & _) | (Hroute & Hmin)]);
    [contradiction|].
  exists order, path. split; [exact Hrun|].
  split; [exact (route_not_nil _ _ _ _ _ Hroute)|]. split; [exact Hroute|].
  assert (Hhops : forall p, route g acc start goal p -> hops path <= hops p).
  { intros p Hp. specialize (Hmin p Hp). unfold hops. lia. }
  split; [exact Hhops|].
  intros order' path' Hdfs Hne.
  destruct (dfs_outcome g start goal acc)
    as (o & p & Hrun' & _ & _ & _ & [(-> & _) | Hroute']);
    rewrite Hrun' in Hdfs; injection Hdfs as <- <-.
  - congruence.
  - now apply Hhops.
Qed.

Lemma bfs_shortest_witness :
  exists order path,
    App._bfs fixture "A" "D" false = Ret (order, path)
    /\ path <> []
    /\ route fixture false "A" "D" path
    /\ (forall p, route fixture false "A" "D" p -> hops path <= hops p)
    /\ (forall order' path',
          App._dfs fixture "A" "D" false = Ret (order', path') ->
          path' <> [] ->
          hops path <= hops path').
Proof.
  apply (bfs_shortest fixture "A" "D" false).
  exists ["A"; "B"; "C"; "D"].
  split; [reflexivity|]. split; [reflexivity|].
  repeat split;
    (eexists; split; [vm_compute; reflexivity
                     | split; [reflexivity | discriminate]]).
Defined.



(** ** More on dictionaries *)

Section DictMore.
Context {K V : Type} `{Key K}.
Implicit Types (d : Dict.t K V) (k : K) (v : V).

Lemma del_app_last d k v :
  Dict.get d k = None -> Dict.del (d ++ [(k, v)]) k = Some d.
Proof.
  induction d as [|[k' v'] d IH]; cbn [app Dict.del Dict.get]; intros E.
  - now rewrite keqb_refl.
  - destruct (keqb k k'); [discriminate|]. now rewrite IH.
Qed.

Lemma get_in_wf d k v : Dict.wf d -> In (k, v) d -> Dict.get d k = Some v.
Proof.
  unfold Dict.wf. induction d as [|[k' v'] d IH]; cbn [Dict.keys map fst Dict.get];
    intros Hnd Hin; [destruct Hin|].
  inversion Hnd as [|? ? Hni Hnd']; subst.
  destruct Hin as [[= -> ->] | Hin].
  - now rewrite keqb_refl.
  - destruct (keqb_spec k k') as [->|_]; [|now apply IH].
    exfalso. apply Hni. change k' with (fst (k', v)). now apply in_map.
Qed.

Lemma get_some_in d k v : Dict.get d k = Some v -> In (k, v) d.
Proof.
  induction d as [|[k' v'] d IH]; cbn [Dict.get]; [discriminate|].
  destruct (keqb_spec k k') as [->|_].
  - intros [= ->]. now left.
  - intros E. right. now apply IH.
Qed.

(** Writing back the value a key already has changes nothing. *)
Lemma set_same d k v : Dict.get d k = Some v -> Dict.set d k v = d.
Proof.
  induction d as [|[k' v'] d IH]; cbn [Dict.get Dict.set]; [discriminate|].
  destruct (keqb k k').
  - now intros [= ->].
  - intros E. now rewrite IH.
Qed.

(** The second of two assignments to a key wins. *)
Lemma set_set d k v v' : Dict.set (Dict.set d k v) k v' = Dict.set d k v'.
Proof.
  induction d as [|[k0 v0] d IH]; cbn [Dict.set].
  - now rewrite keqb_refl.
  - destruct (keqb k k0) eqn:E; cbn [Dict.set]; rewrite E; [reflexivity|].
    now rewrite IH.
Qed.

Lemma keys_set_present d k v :
  Dict.mem k d = true -> Dict.keys (Dict.set d k v) = Dict.keys d.
Proof.
  unfold Dict.mem.
  induction d as [|[k0 v0] d IH]; cbn [Dict.get Dict.set]; [discriminate|].
  destruct (keqb k k0); [reflexivity|]. intros E. cbn. f_equal. now apply IH.
Qed.

End DictMore.

Lemma ltb_irrefl (a : string) : String.ltb a a = false.
Proof.
  destruct (String.ltb a a) eqn:E; [|reflexivity].
  pose proof (ltb_asym _ _ E). congruence.
Qed.

Lemma sorted_pair_ordered (u v : string) :
  u <> v ->
  String.ltb (fst (sorted_pair u v)) (snd (sorted_pair u v)) = true.
Proof.
  intros Huv. unfold sorted_pair.
  destruct (String.ltb v u) eqn:E; cbn; [exact E|].
  destruct (String.ltb u v) eqn:E'; [reflexivity|].
  exfalso. apply Huv. now apply ltb_connex.
Qed.

Lemma sorted_pair_of_ordered (a b : string) :
  String.ltb a b = true -> sorted_pair a b = (a, b).
Proof. intros E. unfold sorted_pair. now rewrite (ltb_asym _ _ E). Qed.

(** ** [add_node] *)

Lemma add_node_success (g : Graph.t) (name : string) (x y : Z) :
  is_blank name = false ->
  Dict.mem name (Graph.nodes g) = false ->
  Graph.add_node g name x y
  = (Ret tt,
     Graph.mk (Graph.nodes g ++ [(name, Node.mk name x y 1%float None None)])
       (Graph.edges g)).
Proof.
  intros Hb Hm. unfold Graph.add_node. rewrite Hb, Hm.
  rewrite set_absent by now apply mem_false_iff. reflexivity.
Qed.

Lemma add_node_cases (g : Graph.t) (name : string) (x y : Z) :
  snd (Graph.add_node g name x y) = g
  \/ (is_blank name = false /\ Dict.mem name (Graph.nodes g) = false).
Proof.
  unfold Graph.add_node. destruct (is_blank name); [now left|].
  destruct (Dict.mem name (Graph.nodes g)); [now left | now right].
Qed.

(** X1. [add_node] fails exactly on a blank name and on a name already
    present.  Otherwise it appends one node, with the given position and
    weight 1.0, which a lookup then returns; every other node and every
    edge stays as it was. *)
Theorem add_node_contract (g : Graph.t) (name : string) (x y : Z) :
  (fails (Graph.add_node g name x y)
   <-> is_blank name = true \/ Dict.mem name (Graph.nodes g) = true)
  /\ (is_blank name = false ->
      Dict.mem name (Graph.nodes g) = false ->
      let node := Node.mk name x y 1%float None None in
      let g' := snd (Graph.add_node g name x y) in
      Graph.add_node g name x y
      = (Ret tt, Graph.mk (Graph.nodes g ++ [(name, node)]) (Graph.edges g))
      /\ Dict.get (Graph.nodes g') name = Some node
      /\ (forall n, n <> name ->
            Dict.get (Graph.nodes g') n = Dict.get (Graph.nodes g) n)
      /\ Graph.edges g' = Graph.edges g).
Proof.
  unfold fails, Graph.add_node. split.
  - destruct (is_blank name); cbn; [split; eauto|].
    destruct (Dict.mem name (Graph.nodes g)); cbn; [split; eauto|].
    split; [intros [e He]; discriminate | intros [E|E]; discriminate].
  - intros -> Hm. rewrite Hm. cbn zeta. cbn [snd Graph.nodes Graph.edges].
    apply mem_false_iff in Hm.
    rewrite set_absent by exact Hm.
    split; [reflexivity|]. split; [|split; [|reflexivity]].
    + rewrite get_app, Hm. cbn. now rewrite String.eqb_refl.
    + intros n Hn. rewrite get_app.
      destruct (Dict.get (Graph.nodes g) n); [reflexivity|].
      cbn. apply String.eqb_neq in Hn. now rewrite Hn.
Qed.

Lemma add_node_contract_witness :
  Graph.add_node fixture "E" 3 4
  = (Ret tt,
     Graph.mk (Graph.nodes fixture ++ [("E", Node.mk "E" 3 4 1%float None None)])
       (Graph.edges fixture))
  /\ fails (Graph.add_node fixture "A" 3 4)
  /\ fails (Graph.add_node fixture " " 3 4).
Proof.
  destruct (add_node_contract fixture "E" 3 4) as [_ H].
  destruct (H eq_refl eq_refl) as [H1 _].
  split; [exact H1|].
  split.
  - apply (proj1 (add_node_contract fixture "A" 3 4)). right.
    vm_compute; reflexivity.
  - apply (proj1 (add_node_contract fixture " " 3 4)). left.
    vm_compute; reflexivity.
Defined.

(** ** [delete_edge] *)

Lemma delete_edge_present (g : Graph.t) (u v : string) :
  Dict.wf (Graph.edges g) ->
  Dict.mem (sorted_pair u v) (Graph.edges g) = true ->
  Graph.delete_edge g u v
  = (Ret tt,
     Graph.mk (Graph.nodes g)
       (filter (fun kv => negb (keqb (sorted_pair u v) (fst kv)))
          (Graph.edges g))).
Proof.
  intros Hwf Hm. unfold Graph.delete_edge. cbn zeta. rewrite Hm. cbn [negb].
  now rewrite (del_wf (Graph.edges g) (sorted_pair u v) Hwf Hm).
Qed.

Lemma add_edge_cases (g : Graph.t) (u v : string) (d t : float) (a : bool) :
  snd (Graph.add_edge g u v d t a) = g
  \/ exists r g', Graph.add_edge g u v d t a = (Ret r, g').
Proof.
  unfold Graph.add_edge.
  destruct (String.eqb u v); [now left|].
  destruct (negb _ || negb _); [now left|]. cbn zeta.
  destruct (Dict.mem _ (Graph.edges g)); [now left|].
  destruct (_ || _); [now left | right; eauto].
Qed.

(** X2. [delete_edge] fails, leaving the model as it was, when no edge is
    stored for the normalized pair; otherwise it removes that one entry:
    afterwards [get_edge] finds nothing for the pair in either order, and
    every other pair, and every node, is as before. *)
Theorem delete_edge_contract (g : Graph.t) (u v : string) :
  Dict.wf (Graph.edges g) ->
  (Dict.mem (sorted_pair u v) (Graph.edges g) = false ->
   exists e, Graph.delete_edge g u v = (Raise e, g))
  /\ (Dict.mem (sorted_pair u v) (Graph.edges g) = true ->
      let g' := Graph.mk (Graph.nodes g)
                  (filter (fun kv => negb (keqb (sorted_pair u v) (fst kv)))
                     (Graph.edges g)) in
      Graph.delete_edge g u v = (Ret tt, g')
      /\ Graph.delete_edge g v u = (Ret tt, g')
      /\ Graph.get_edge g' u v = None
      /\ Graph.get_edge g' v u = None
      /\ (forall a b, sorted_pair a b <> sorted_pair u v ->
            Graph.get_edge g' a b = Graph.get_edge g a b)
      /\ S (List.length (Graph.edges g')) = List.length (Graph.edges g)).
Proof.
  intros Hwf. split.
  - intros Hm. unfold Graph.delete_edge. cbn zeta. rewrite Hm. cbn. eauto.
  - intros Hm g'.
    assert (Hdel : Graph.delete_edge g u v = (Ret tt, g')).
    { unfold Graph.delete_edge. cbn zeta. rewrite Hm. cbn [negb].
      now rewrite (del_wf (Graph.edges g) (sorted_pair u v) Hwf Hm). }
    assert (Hnone : Graph.get_edge g' u v = None).
    { unfold Graph.get_edge. subst g'. cbn [Graph.edges].
      apply (filter_key_absent (fun k => negb (keqb (sorted_pair u v) k))).
      now rewrite keqb_refl. }
    split; [exact Hdel|]. split; [|split; [exact Hnone | split; [|split]]].
    + unfold Graph.delete_edge. cbn zeta.
      rewrite (sorted_pair_comm v u), Hm. cbn [negb].
      now rewrite (del_wf (Graph.edges g) (sorted_pair u v) Hwf Hm).
    + now rewrite get_edge_comm.
    + intros a b Hab. unfold Graph.get_edge. subst g'. cbn [Graph.edges].
      apply (filter_key_kept (fun k => negb (keqb (sorted_pair u v) k))).
      apply negb_true_iff, keqb_neq. congruence.
    + subst g'. cbn [Graph.edges]. clear Hdel Hnone.
      unfold Dict.wf, Dict.mem in *. revert Hwf Hm.
      induction (Graph.edges g) as [|[k e] es IH]; cbn [Dict.get Dict.keys map fst filter];
        intros Hnd Hm; [discriminate|].
      inversion Hnd as [|? ? Hni Hnd']; subst.
      destruct (keqb_spec (sorted_pair u v) k) as [->|Hk]; cbn [negb List.length].
      * f_equal. f_equal. apply forallb_filter_id, forallb_forall.
        intros [k' e'] Hin. cbn [fst]. apply negb_true_iff, keqb_neq.
        intros ->. apply Hni. change k' with (fst (k', e')). now apply in_map.
      * f_equal. now apply IH.
Qed.

Lemma delete_edge_contract_witness :
  (exists e, Graph.delete_edge fixture "A" "D" = (Raise e, fixture))
  /\ Graph.get_edge (snd (Graph.delete_edge fixture "C" "A")) "A" "C" = None.
Proof.
  assert (Hwf : Dict.wf (Graph.edges fixture)).
  { unfold Dict.wf. vm_compute.
    repeat (constructor; [intros H; cbn in H; intuition discriminate|]).
    constructor. }
  destruct (delete_edge_contract fixture "A" "D" Hwf) as [H1 _].
  destruct (delete_edge_contract fixture "C" "A" Hwf) as [_ H2].
  split; [apply H1; vm_compute; reflexivity|].
  assert (Hm : Dict.mem (sorted_pair "C" "A") (Graph.edges fixture) = true)
    by (vm_compute; reflexivity).
  destruct (H2 Hm) as (Hdel & _ & _ & Hnone & _).
  rewrite Hdel. exact Hnone.
Defined.

(** ** The invariant of the model *)

Lemma mem_app_l {V : Type} (d d' : Dict.t string V) (k : string) :
  Dict.mem k d = true -> Dict.mem k (d ++ d') = true.
Proof.
  unfold Dict.mem. rewrite get_app. now destruct (Dict.get d k).
Qed.

Lemma edge_ok_nodes (ns ns' : Dict.t string Node.t)
    (kv : (string * string) * Edge.t) :
  (forall n, Dict.mem n ns = true -> Dict.mem n ns' = true) ->
  edge_ok ns kv -> edge_ok ns' kv.
Proof.
  intros Hsub (H1 & H2 & H3 & H4 & H5 & H6).
  repeat split; auto.
Qed.

Lemma graph_ok_empty : graph_ok Graph.empty.
Proof. repeat split; constructor. Qed.

Lemma graph_ok_add_node (g : Graph.t) (name : string) (x y : Z) :
  graph_ok g -> graph_ok (snd (Graph.add_node g name x y)).
Proof.
  intros Hok.
  destruct (add_node_cases g name x y) as [-> | [Hb Hm]]; [exact Hok|].
  rewrite (add_node_success g name x y Hb Hm). cbn [snd].
  destruct Hok as (Hwn & Hwe & Hn & He).
  split; [|split; [exact Hwe | split]]; cbn [Graph.nodes Graph.edges].
  - unfold Dict.wf, Dict.keys. rewrite map_app. cbn.
    apply NoDup_app; [exact Hwn | constructor; [intros [] | constructor] |].
    intros k Hk [<- | []]. apply mem_true_iff in Hk. congruence.
  - apply Forall_app. split; [exact Hn|].
    constructor; [|constructor]. split; [reflexivity | exact Hb].
  - eapply Forall_impl; [|exact He]. intros kv.
    apply edge_ok_nodes. intros n. apply mem_app_l.
Qed.

Lemma graph_ok_delete_node (g : Graph.t) (name : string) :
  graph_ok g -> graph_ok (snd (Graph.delete_node g name)).
Proof.
  intros Hok.
  destruct (Dict.mem name (Graph.nodes g)) eqn:Hm;
    [|unfold Graph.delete_node; now rewrite Hm].
  destruct Hok as (Hwn & Hwe & Hn & He).
  destruct (delete_node_present g name Hm) as [ns [Hns ->]].
  rewrite (del_wf (Graph.nodes g) name Hwn Hm) in Hns. injection Hns as <-.
  cbn [snd].
  split; [|split; [|split]]; cbn [Graph.nodes Graph.edges].
  - unfold Dict.wf.
    pose proof (keys_filter (fun k => negb (String.eqb name k)) (Graph.nodes g)) as E.
    cbv beta in E. rewrite E. now apply NoDup_filter.
  - unfold Dict.wf.
    pose proof (keys_filter (fun k => negb (in_key name k)) (Graph.edges g)) as E.
    cbv beta in E. rewrite E. now apply NoDup_filter.
  - apply Forall_forall. intros kv Hin. apply filter_In in Hin as [Hin _].
    rewrite Forall_forall in Hn. now apply Hn.
  - apply Forall_forall. intros [[a b] e] Hin.
    apply filter_In in Hin as [Hin Hk]. cbn [fst] in Hk.
    rewrite Forall_forall in He.
    destruct (He _ Hin) as (H1 & H2 & H3 & H4 & H5 & H6). cbn [fst snd] in *.
    apply negb_true_iff in Hk. unfold in_key in Hk. cbn [fst snd] in Hk.
    apply orb_false_iff in Hk as [Ha Hb].
    repeat split; auto; cbn [fst snd]; unfold Dict.mem in *.
    + rewrite (filter_key_kept (fun k => negb (String.eqb name k)));
        [exact H3 | now rewrite Ha].
    + rewrite (filter_key_kept (fun k => negb (String.eqb name k)));
        [exact H4 | now rewrite Hb].
Qed.

Lemma graph_ok_add_edge (g : Graph.t) (u v : string) (d t : float) (a : bool) :
  graph_ok g -> graph_ok (snd (Graph.add_edge g u v d t a)).
Proof.
  intros Hok.
  destruct (add_edge_cases g u v d t a) as [-> | (r & g' & E)]; [exact Hok|].
  rewrite E. cbn [snd].
  pose proof (add_edge_ret_inv _ _ _ _ _ _ _ _ E) as (Huv & Hu & Hv & Hk & Hd & Ht).
  rewrite (add_edge_success g u v d t a Huv Hu Hv Hk Hd Ht) in E.
  injection E as _ <-.
  destruct Hok as (Hwn & Hwe & Hn & He).
  split; [exact Hwn|]. split; [|split; [exact Hn|]]; cbn [Graph.nodes Graph.edges].
  - unfold Dict.wf, Dict.keys. rewrite map_app. cbn.
    apply NoDup_app; [exact Hwe | constructor; [intros [] | constructor] |].
    intros k Hi [<- | []]. apply mem_true_iff in Hi. congruence.
  - apply Forall_app. split; [exact He|].
    constructor; [|constructor].
    pose proof (sorted_pair_ordered u v Huv) as Hlt.
    repeat split; cbn [fst snd Edge.distance Edge.time]; auto.
    + destruct (sorted_pair_cases u v) as [-> | ->]; assumption.
    + destruct (sorted_pair_cases u v) as [-> | ->]; assumption.
Qed.

Lemma graph_ok_delete_edge (g : Graph.t) (u v : string) :
  graph_ok g -> graph_ok (snd (Graph.delete_edge g u v)).
Proof.
  intros Hok.
  destruct (Dict.mem (sorted_pair u v) (Graph.edges g)) eqn:Hm.
  - destruct Hok as (Hwn & Hwe & Hn & He).
    rewrite (delete_edge_present g u v Hwe Hm). cbn [snd].
    split; [exact Hwn|]. split; [|split; [exact Hn|]]; cbn [Graph.nodes Graph.edges].
    + unfold Dict.wf.
      pose proof (keys_filter (fun k => negb (keqb (sorted_pair u v) k))
                    (Graph.edges g)) as E.
      cbv beta in E. rewrite E. now apply NoDup_filter.
    + apply Forall_forall. intros kv Hin. apply filter_In in Hin as [Hin _].
      rewrite Forall_forall in He. now apply He.
  - unfold Graph.delete_edge. cbn zeta. now rewrite Hm.
Qed.

(** The fixture is built by the operations, so it satisfies the invariant. *)
Lemma fixture_ok : graph_ok fixture.
Proof.
  unfold fixture, run.
  repeat (first [apply graph_ok_add_edge | apply graph_ok_add_node]).
  apply graph_ok_empty.
Qed.

(** X3. The model invariant.  The empty graph satisfies it and the four
    mutating operations keep it, whether they succeed or fail: no key
    occurs twice in either dictionary; every node is stored under its own
    non-blank name; every edge is stored under a strictly ordered pair of
    names, which is the key of the stored edge, both names are nodes, and
    neither its distance nor its time is [<= 0]. *)
Theorem graph_invariant (g : Graph.t) :
  graph_ok Graph.empty
  /\ (graph_ok g ->
      (forall name x y, graph_ok (snd (Graph.add_node g name x y)))
      /\ (forall name, graph_ok (snd (Graph.delete_node g name)))
      /\ (forall u v d t a, graph_ok (snd (Graph.add_edge g u v d t a)))
      /\ (forall u v, graph_ok (snd (Graph.delete_edge g u v)))).
Proof.
  split; [exact graph_ok_empty|]. intros Hok. split; [|split; [|split]].
  - intros. now apply graph_ok_add_node.
  - intros. now apply graph_ok_delete_node.
  - intros. now apply graph_ok_add_edge.
  - intros. now apply graph_ok_delete_edge.
Qed.

(** ** Undoing an insertion *)

Lemma no_incident_edge (g : Graph.t) (name : string) :
  graph_ok g -> Dict.mem name (Graph.nodes g) = false ->
  filter (in_key name) (Dict.keys (Graph.edges g)) = []
  /\ filter (fun kv => negb (in_key name (fst kv))) (Graph.edges g)
     = Graph.edges g.
Proof.
  intros (_ & _ & _ & He) Hm. rewrite Forall_forall in He.
  assert (Hk : forall kv, In kv (Graph.edges g) -> in_key name (fst kv) = false).
  { intros kv Hin. destruct (He kv Hin) as (_ & _ & H3 & H4 & _).
    unfold in_key. apply orb_false_iff.
    split; apply String.eqb_neq; intros E; subst name; congruence. }
  split.
  - unfold Dict.keys.
    induction (Graph.edges g) as [|kv es IH]; [reflexivity|]. cbn.
    rewrite (Hk kv) by now left. apply IH.
    + intros kv' Hin. apply He. now right.
    + intros kv' Hin. apply Hk. now right.
  - apply forallb_filter_id, forallb_forall. intros kv Hin.
    now rewrite (Hk kv Hin).
Qed.

(** X4. Deleting what was just added gives the model back: [delete_edge],
    with the endpoints in either order, undoes a successful [add_edge], and
    on a model that satisfies the invariant [delete_node] undoes a
    successful [add_node], removing no edge. *)
Theorem insertion_undone (g : Graph.t) :
  (forall u v d t a r g',
     Graph.add_edge g u v d t a = (Ret r, g') ->
     Graph.delete_edge g' u v = (Ret tt, g)
     /\ Graph.delete_edge g' v u = (Ret tt, g))
  /\ (graph_ok g ->
      forall name x y r g',
        Graph.add_node g name x y = (Ret r, g') ->
        Graph.delete_node g' name = (Ret 0, g)).
Proof.
  split.
  - intros u v d t a r g' E.
    pose proof (add_edge_ret_inv _ _ _ _ _ _ _ _ E) as (Huv & Hu & Hv & Hk & Hd & Ht).
    rewrite (add_edge_success g u v d t a Huv Hu Hv Hk Hd Ht) in E.
    injection E as _ <-.
    assert (Hdel : forall k', k' = sorted_pair u v ->
              Dict.del (Graph.edges g
                        ++ [(sorted_pair u v,
                             Edge.mk u v d t a false None None)]) k'
              = Some (Graph.edges g)).
    { intros k' ->. apply del_app_last. now apply mem_false_iff. }
    assert (Hmem : Dict.mem (sorted_pair u v)
                     (Graph.edges g
                      ++ [(sorted_pair u v,
                           Edge.mk u v d t a false None None)]) = true).
    { unfold Dict.mem. rewrite get_app. apply mem_false_iff in Hk.
      rewrite Hk. cbn [Dict.get]. now rewrite keqb_refl. }
    split; unfold Graph.delete_edge; cbn zeta; cbn [Graph.edges Graph.nodes];
      rewrite ?(sorted_pair_comm v u), Hmem; cbn [negb];
      rewrite (Hdel _ eq_refl); now destruct g.
  - intros Hok name x y r g' E.
    assert (Hb : is_blank name = false /\ Dict.mem name (Graph.nodes g) = false).
    { revert E. unfold Graph.add_node.
      destruct (is_blank name); [discriminate|].
      destruct (Dict.mem name (Graph.nodes g)); [discriminate | auto]. }
    destruct Hb as [Hb Hm].
    rewrite (add_node_success g name x y Hb Hm) in E. injection E as _ <-.
    set (node := Node.mk name x y 1%float None None).
    assert (Hmem : Dict.mem name (Graph.nodes g ++ [(name, node)]) = true).
    { unfold Dict.mem. rewrite get_app. apply mem_false_iff in Hm.
      rewrite Hm. cbn [Dict.get]. now rewrite keqb_refl. }
    destruct (delete_node_present
                (Graph.mk (Graph.nodes g ++ [(name, node)]) (Graph.edges g))
                name Hmem) as [ns [Hns ->]].
    cbn [Graph.nodes Graph.edges] in *.
    rewrite del_app_last in Hns by now apply mem_false_iff.
    injection Hns as <-.
    destruct (no_incident_edge g name Hok Hm) as [-> ->].
    now destruct g.
Qed.

Lemma insertion_undone_witness :
  Graph.delete_node (snd (Graph.add_node fixture "E" 3 4)) "E" = (Ret 0, fixture).
Proof.
  destruct (insertion_undone fixture) as [_ H].
  apply (H fixture_ok "E" 3%Z 4%Z tt). vm_compute. reflexivity.
Defined.

(** ** [neighbors] *)

Lemma scan_edges_in (es : Dict.t (string * string) Edge.t) (u w : string)
    (acc : bool) :
  In w (Graph.scan_edges es u acc)
  <-> exists e, passes acc e /\ (In ((u, w), e) es \/ In ((w, u), e) es).
Proof.
  induction es as [|[[a b] e] es IH]; cbn [Graph.scan_edges].
  - split; [intros [] | intros (e & _ & [[] | []])].
  - assert (Hrest : In w (Graph.scan_edges es u acc) ->
              exists e0, passes acc e0
                         /\ (In ((u, w), e0) ((a, b, e) :: es)
                             \/ In ((w, u), e0) ((a, b, e) :: es))).
    { intros Hin. apply IH in Hin as (e0 & Hp & [H|H]); exists e0;
        (split; [exact Hp|]); [left | right]; now right. }
    assert (Hskip : ~ passes acc e ->
              (exists e0, passes acc e0
                          /\ (In ((u, w), e0) ((a, b, e) :: es)
                              \/ In ((w, u), e0) ((a, b, e) :: es))) ->
              In w (Graph.scan_edges es u acc)).
    { intros Hn (e0 & Hp & H). apply IH. exists e0. split; [exact Hp|].
      destruct H as [[[= -> -> ->] | H] | [[= -> -> ->] | H]]; tauto. }
    destruct (Edge.closed e) eqn:Hc.
    { split; [exact Hrest | apply Hskip]. intros [H _]. congruence. }
    destruct (acc && negb (Edge.accessible e)) eqn:Ha.
    { split; [exact Hrest | apply Hskip]. intros [_ H].
      apply andb_true_iff in Ha as [-> Ha]. rewrite H in Ha by reflexivity.
      discriminate. }
    assert (Hp : passes acc e).
    { split; [exact Hc|]. intros ->. cbn in Ha. now apply negb_false_iff in Ha. }
    destruct (String.eqb_spec a u) as [-> | Hau].
    { split.
      - intros [<- | Hin]; [|now apply Hrest].
        exists e. split; [exact Hp|]. left. now left.
      - intros (e0 & Hp0 & H).
        destruct H as [[[= <- <-] | H] | [[= <- <-] | H]].
        + now left.
        + right. apply IH. eauto.
        + now left.
        + right. apply IH. eauto. }
    destruct (String.eqb_spec b u) as [-> | Hbu].
    { split.
      - intros [<- | Hin]; [|now apply Hrest].
        exists e. split; [exact Hp|]. right. now left.
      - intros (e0 & Hp0 & H).
        destruct H as [[[= <- <-] | H] | [[= <- <-] | H]].
        + congruence.
        + right. apply IH. eauto.
        + now left.
        + right. apply IH. eauto. }
    split; [exact Hrest|].
    intros (e0 & Hp0 & H). apply IH. exists e0. split; [exact Hp0|].
    destruct H as [[[= <- <-] | H] | [[= <- <-] | H]]; try congruence; tauto.
Qed.

(** X5. [neighbors] is symmetric, on every edge dictionary: [w] is listed
    among the neighbors of [u] exactly when [u] is listed among those of
    [w], under the same filter. *)
Theorem neighbors_symmetric (g : Graph.t) (u w : string) (acc : bool) :
  In w (Graph.neighbors g u acc) <-> In u (Graph.neighbors g w acc).
Proof.
  unfold Graph.neighbors. rewrite !scan_edges_in.
  split; intros (e & Hp & H); exists e; tauto.
Qed.

Lemma edge_key_ordered (g : Graph.t) (a b : string) (e : Edge.t) :
  graph_ok g -> In ((a, b), e) (Graph.edges g) -> String.ltb a b = true.
Proof.
  intros (_ & _ & _ & He) Hin. rewrite Forall_forall in He.
  now destruct (He _ Hin) as [H _].
Qed.

Lemma neighbor_traversable (g : Graph.t) (u w : string) (acc : bool) :
  graph_ok g -> In w (Graph.neighbors g u acc) -> traversable g acc u w.
Proof.
  intros Hok Hin. unfold Graph.neighbors in Hin.
  apply scan_edges_in in Hin as (e & [Hc Ha] & H).
  exists e. split; [|split; assumption].
  unfold Graph.get_edge.
  destruct Hok as (Hwn & Hwe & Hn & He).
  assert (Hok : graph_ok g) by (repeat split; assumption).
  destruct H as [H | H].
  - rewrite (sorted_pair_of_ordered u w (edge_key_ordered g u w e Hok H)).
    now apply get_in_wf.
  - rewrite sorted_pair_comm.
    rewrite (sorted_pair_of_ordered w u (edge_key_ordered g w u e Hok H)).
    now apply get_in_wf.
Qed.

Lemma scan_edges_nodup (nodes : Dict.t string Node.t)
    (es : Dict.t (string * string) Edge.t) (u : string) (acc : bool) :
  Dict.wf es ->
  (forall a b e, In ((a, b), e) es -> String.ltb a b = true) ->
  NoDup (Graph.scan_edges es u acc).
Proof.
  unfold Dict.wf.
  induction es as [|[[a b] e] es IH]; cbn [Graph.scan_edges Dict.keys map fst];
    intros Hnd Hlt; [constructor|].
  inversion Hnd as [|? ? Hni Hnd']; subst.
  assert (IH' : NoDup (Graph.scan_edges es u acc)).
  { apply IH; [exact Hnd'|]. intros a' b' e' Hin. apply (Hlt a' b' e'). now right. }
  assert (Hab : String.ltb a b = true) by (apply (Hlt a b e); now left).
  assert (Hfresh : forall w, (a = u /\ b = w) \/ (b = u /\ a = w) ->
                    ~ In w (Graph.scan_edges es u acc)).
  { intros w Hw Hin. apply scan_edges_in in Hin as (e' & _ & H).
    assert (Hab' : In (a, b) (map fst es)).
    { destruct Hw as [[-> ->] | [-> ->]], H as [H | H].
      - change (u, w) with (fst ((u, w), e')). now apply in_map.
      - assert (String.ltb w u = true) by (apply (Hlt w u e'); now right).
        pose proof (ltb_asym _ _ Hab). congruence.
      - assert (String.ltb u w = true) by (apply (Hlt u w e'); now right).
        pose proof (ltb_asym _ _ Hab). congruence.
      - change (w, u) with (fst ((w, u), e')). now apply in_map. }
    now apply Hni. }
  destruct (Edge.closed e); [exact IH'|].
  destruct (acc && negb (Edge.accessible e)); [exact IH'|].
  destruct (String.eqb_spec a u) as [Ea | _].
  { constructor; [apply Hfresh; now left | exact IH']. }
  destruct (String.eqb_spec b u) as [Eb | _]; [|exact IH'].
  constructor; [apply Hfresh; now right | exact IH'].
Qed.

(** X6. On a model that satisfies the invariant, [neighbors] lists each
    neighbor once and never the node itself, and it lists exactly the nodes
    joined to [name] by a traversable edge; so the second test the
    traversals make on each neighbor, through [get_edge], skips none. *)
Theorem neighbors_on_model (g : Graph.t) (name : string) (acc : bool) :
  graph_ok g ->
  NoDup (Graph.neighbors g name acc)
  /\ ~ In name (Graph.neighbors g name acc)
  /\ (forall w, In w (Graph.neighbors g name acc) <-> traversable g acc name w)
  /\ (forall w, In w (Graph.neighbors g name acc) ->
        App.blocked acc (Graph.get_edge g name w) = false).
Proof.
  intros Hok. split; [|split; [|split]].
  - destruct Hok as (Hwn & Hwe & Hn & He) eqn:E. clear E.
    apply (scan_edges_nodup (Graph.nodes g)); [exact Hwe|].
    intros a b e Hin. rewrite Forall_forall in He.
    now destruct (He _ Hin) as [H _].
  - intros Hin. unfold Graph.neighbors in Hin.
    apply scan_edges_in in Hin as (e & _ & [H | H]);
      apply (edge_key_ordered g _ _ _ Hok) in H;
      rewrite ltb_irrefl in H; discriminate.
  - intros w. split; [now apply neighbor_traversable | apply traversable_neighbor].
  - intros w Hin. apply blocked_false_iff. now apply neighbor_traversable.
Qed.

Lemma neighbors_on_model_witness :
  NoDup (Graph.neighbors fixture "C" true)
  /\ ~ In "C" (Graph.neighbors fixture "C" true).
Proof.
  destruct (neighbors_on_model fixture "C" true fixture_ok) as (H1 & H2 & _).
  split; assumption.
Defined.

(** ** The network is undirected *)

Lemma traversable_sym (g : Graph.t) (acc : bool) (a b : string) :
  traversable g acc a b -> traversable g acc b a.
Proof.
  intros (e & H & Hp). exists e. split; [|exact Hp].
  now rewrite get_edge_comm.
Qed.

Lemma last_default (l : list string) (d d' : string) :
  l <> [] -> last l d = last l d'.
Proof.
  induction l as [|a [|b l] IH]; intros Hne; [congruence | reflexivity|].
  apply IH. discriminate.
Qed.

Lemma route_rev (g : Graph.t) (acc : bool) (s t : string) (p : list string) :
  route g acc s t p -> route g acc t s (rev p).
Proof.
  revert t p. apply route_snoc_ind.
  - apply route_refl.
  - intros y x p Hp IH Hyx. rewrite rev_app_distr. cbn [rev app].
    destruct (route_nonempty _ _ _ _ _ IH) as [r Hr]. rewrite Hr.
    destruct IH as (_ & Hl & Hc). rewrite Hr in Hl, Hc.
    split; [reflexivity|]. split.
    + rewrite <- Hl. change (last (x :: y :: r) x) with (last (y :: r) x).
      apply last_default. discriminate.
    + split; [now apply traversable_sym | exact Hc].
Qed.

Lemma hops_rev (p : list string) : hops (rev p) = hops p.
Proof. unfold hops. now rewrite length_rev. Qed.

(** X7. Reachability is symmetric: a path over traversable edges from
    [s] to [t], read backwards, is such a path from [t] to [s], with the
    same number of edges. *)
Theorem reachable_symmetric (g : Graph.t) (acc : bool) (s t : string) :
  (forall p, route g acc s t p ->
             route g acc t s (rev p) /\ hops (rev p) = hops p)
  /\ (reachable g acc s t <-> reachable g acc t s).
Proof.
  split.
  - intros p Hp. split; [now apply route_rev | apply hops_rev].
  - split; intros [p Hp]; exists (rev p); now apply route_rev.
Qed.

(** X8. BFS in the two directions: when [goal] is reachable from [start],
    BFS from [start] to [goal] and BFS from [goal] to [start] both return a
    path, and the two paths have the same number of edges. *)
Theorem bfs_both_directions (g : Graph.t) (acc : bool) (start goal : string) :
  reachable g acc start goal ->
  exists order path order' path',
    App._bfs g start goal acc = Ret (order, path)
    /\ App._bfs g goal start acc = Ret (order', path')
    /\ route g acc start goal path
    /\ route g acc goal start path'
    /\ hops path = hops path'.
Proof.
  intros Hr.
  assert (Hr' : reachable g acc goal start).
  { destruct Hr as [p0 Hp0]. exists (rev p0). now apply route_rev. }
  destruct (bfs_outcome g start goal acc)
    as (o & p & Hrun & _ & _ & _ & [(_ & Hno & _) | (Hp & Hmin)]);
    [contradiction|].
  destruct (bfs_outcome g goal start acc)
    as (o' & p' & Hrun' & _ & _ & _ & [(_ & Hno & _) | (Hp' & Hmin')]);
    [contradiction|].
  exists o, p, o', p'. do 4 (split; [assumption|]).
  pose proof (Hmin (rev p') (route_rev _ _ _ _ _ Hp')) as H1.
  pose proof (Hmin' (rev p) (route_rev _ _ _ _ _ Hp)) as H2.
  rewrite length_rev in H1, H2. unfold hops. lia.
Qed.

Lemma bfs_both_directions_witness :
  exists order path order' path',
    App._bfs fixture "A" "D" false = Ret (order, path)
    /\ App._bfs fixture "D" "A" false = Ret (order', path')
    /\ route fixture false "A" "D" path
    /\ route fixture false "D" "A" path'
    /\ hops path = hops path'.
Proof.
  apply (bfs_both_directions fixture false "A" "D").
  exists ["A"; "C"; "D"].
  split; [reflexivity|]. split; [reflexivity|].
  repeat split;
    (eexists; split; [vm_compute; reflexivity
                     | split; [reflexivity | discriminate]]).
Defined.


(** ** [_reconstruct_path] on any parent dictionary *)

Lemma ascent_lineage (P : Dict.t string (option string)) (x : string)
    (m : list string) :
  ascent P x m -> forall r, last m r = r -> last m x = r ->
  lineage P r x (rev m).
Proof.
  induction 1 as [x Hx | x p m Hx Hm IH]; intros r _ Hl.
  - cbn in Hl. subst r. now constructor.
  - assert (Hne : m <> []) by (destruct Hm; discriminate).
    cbn [rev]. constructor 2 with (p := p); [exact Hx|].
    assert (Hlast : last m p = r).
    { rewrite <- Hl. destruct m as [|a m]; [congruence|].
      change (last (x :: a :: m) x) with (last (a :: m) x).
      apply last_default. discriminate. }
    apply IH; [|exact Hlast].
    rewrite <- Hlast at 2. apply last_default. exact Hne.
Qed.

Lemma climb_ascent (P : Dict.t string (option string)) (fuel : nat) :
  forall x pre path,
    App.climb fuel P x (pre ++ [x]) = Ret path ->
    exists m, path = pre ++ m /\ ascent P x m.
Proof.
  induction fuel as [|fuel IH]; intros x pre path; cbn [App.climb];
    destruct (Dict.get P x) as [[p|]|] eqn:Hx; try discriminate.
  - intros [= <-]. exists [x]. split; [reflexivity | now constructor].
  - intros Hrun. apply IH in Hrun as (m & -> & Hm).
    exists (x :: m). split; [now rewrite <- app_assoc|].
    now constructor 2 with (p := p).
  - intros [= <-]. exists [x]. split; [reflexivity | now constructor].
Qed.

(** X10. [_reconstruct_path] on any parent dictionary.  It returns the
    empty path when [goal] has no entry.  A path it returns, if not empty,
    starts with [start], whose entry is [None], ends with [goal], and each
    of its nodes is the recorded parent of the next.  It raises [KeyError]
    when the parent recorded for [goal] has no entry itself. *)
Theorem reconstruct_path_contract (P : Dict.t string (option string))
    (start goal : string) :
  (Dict.mem goal P = false -> App._reconstruct_path P start goal = Ret [])
  /\ (forall path,
        App._reconstruct_path P start goal = Ret path -> path <> [] ->
        lineage P start goal path
        /\ hd_error path = Some start
        /\ last path start = goal)
  /\ (forall p,
        Dict.get P goal = Some (Some p) -> Dict.get P p = None ->
        App._reconstruct_path P start goal = Raise KeyError).
Proof.
  split; [|split].
  - intros Hm. unfold App._reconstruct_path. now rewrite Hm.
  - intros path. unfold App._reconstruct_path.
    destruct (Dict.mem goal P); cbn [negb]; [|intros [= <-]; congruence].
    destruct (App.climb (List.length P) P goal [goal]) as [raw| |] eqn:Hc;
      cbn [bind]; try discriminate.
    destruct (climb_ascent P _ goal [] raw Hc) as (m & Hraw & Hm).
    cbn [app] in Hraw. subst raw.
    destruct (rev m) as [|first rest] eqn:Hrev; [intros [= <-]; congruence|].
    destruct (String.eqb_spec first start) as [-> | _];
      [|intros [= <-]; congruence].
    intros [= <-] _.
    assert (Hlast : last m goal = start).
    { rewrite <- (rev_involutive m), Hrev. cbn [rev]. apply last_last. }
    assert (Hne : m <> []) by (destruct Hm; discriminate).
    assert (Hlin : lineage P start goal (rev m)).
    { apply ascent_lineage; [exact Hm | | exact Hlast].
      rewrite <- Hlast at 2. now apply last_default. }
    rewrite Hrev in Hlin.
    split; [exact Hlin|]. split; [reflexivity|].
    now destruct (lineage_shape _ _ _ _ Hlin) as [_ H].
  - intros p Hg Hp. unfold App._reconstruct_path, Dict.mem. rewrite Hg.
    cbn [negb]. destruct P as [|kv P]; [discriminate|].
    cbn [List.length App.climb]. rewrite Hg. cbn [App.climb].
    destruct (List.length P); cbn [App.climb]; now rewrite Hp.
Qed.

(** ** More on what the traversals return *)

Section More.
Variables (g : Graph.t) (start goal : string) (acc : bool).

Lemma lineage_parents (P : Dict.t string (option string)) (x : string)
    (l : list string) :
  lineage P start x l ->
  forall y, In y l -> y = x \/ exists z, Dict.get P z = Some (Some y).
Proof.
  induction 1 as [Hroot | x p l Hx Hl IH]; intros y Hy.
  - destruct Hy as [<- | []]. now left.
  - apply in_app_iff in Hy as [Hy | [<- | []]]; [|now left]. right.
    destruct (IH y Hy) as [-> | Hz]; [now exists x | exact Hz].
Qed.

Lemma parents_dequeued_init : parents_dequeued (App.Bfs.init start).
Proof.
  intros x p. cbn. destruct (String.eqb x start); discriminate.
Qed.

Lemma bfs_loop_parents (fuel : nat) :
  forall s s',
    parents_dequeued s ->
    App.Bfs.loop fuel g goal acc s = Ret s' ->
    parents_dequeued s'.
Proof.
  induction fuel as [|fuel IH]; intros [Q P V E] s' HJ;
    destruct Q as [|u Q']; cbn [App.Bfs.loop App.Bfs.q]; try discriminate;
    try (intros [= <-]; exact HJ).
  cbn [App.Bfs.parent App.Bfs.visited App.Bfs.visited_order].
  destruct (String.eqb u goal).
  - intros [= <-] x p Hx. cbn in *. apply in_or_app. left. now apply (HJ x p).
  - apply IH.
    destruct (bfs_scan_spec g acc u (Graph.neighbors g u acc)
                (App.Bfs.mk Q' P V (E ++ [u])))
      as (new & _ & Hvo & _ & _ & _ & _ & Hpar).
    intros x p Hx. rewrite Hvo. rewrite Hpar in Hx.
    cbn [App.Bfs.parent App.Bfs.visited_order] in *. apply in_or_app.
    destruct (in_dec string_dec x new).
    + injection Hx as <-. right. now left.
    + left. now apply (HJ x p).
Qed.

Lemma bfs_head_closer (d : string -> nat) (s : App.Bfs.vars) (u : string)
    (rest : list string) :
  bfs_inv g start goal acc d s -> App.Bfs.q s = u :: rest ->
  forall x, In x (App.Bfs.visited_order s) -> closer g acc start x u.
Proof.
  intros Hinv Hq x Hx p Hp.
  destruct (bfs_frontier g start goal acc d s u rest Hinv Hq u p Hp) as [[_ Hd] | Hd];
    destruct Hinv as [Hsplit _ _ _ Htree _ _ Hdone _ _ _ _];
    (assert (HxV : In x (App.Bfs.visited s))
       by (apply Hsplit, in_or_app; now left));
    destruct (Htree x HxV) as (l & (_ & Hr & _) & Hlen);
    (assert (d x <= d u) by (apply Hdone; [exact Hx | rewrite Hq; now left]));
    exists l; (split; [exact Hr | lia]).
Qed.

Lemma bfs_loop_levels (fuel : nat) :
  forall d s s',
    bfs_inv g start goal acc d s ->
    StronglySorted (closer g acc start) (App.Bfs.visited_order s) ->
    App.Bfs.loop fuel g goal acc s = Ret s' ->
    StronglySorted (closer g acc start) (App.Bfs.visited_order s').
Proof.
  induction fuel as [|fuel IH]; intros d [Q P V E] s' Hinv HK;
    destruct Q as [|u Q']; cbn [App.Bfs.loop App.Bfs.q]; try discriminate;
    try (intros [= <-]; exact HK).
  cbn [App.Bfs.parent App.Bfs.visited App.Bfs.visited_order] in *.
  assert (HK' : StronglySorted (closer g acc start) (E ++ [u])).
  { apply ssorted_app; [exact HK | constructor; constructor |].
    intros x y Hx [<- | []].
    now apply (bfs_head_closer d (App.Bfs.mk (u :: Q') P V E) u Q' Hinv eq_refl). }
  destruct (String.eqb_spec u goal) as [-> | Hug].
  - intros [= <-]. exact HK'.
  - destruct (bfs_inv_step g start goal acc d u Q' P V E Hinv Hug) as [d' Hinv'].
    apply (IH d'); [exact Hinv'|].
    destruct (bfs_scan_spec g acc u (Graph.neighbors g u acc)
                (App.Bfs.mk Q' P V (E ++ [u]))) as (new & _ & -> & _).
    exact HK'.
Qed.

Lemma bfs_outcome_more :
  exists order path,
    App._bfs g start goal acc = Ret (order, path)
    /\ (forall x, In x order -> reachable g acc start x)
    /\ NoDup path
    /\ incl path order
    /\ StronglySorted (closer g acc start) order.
Proof.
  destruct (bfs_loop_exit g start goal acc (App.fuel_of g) (fun _ => 0)
              (App.Bfs.init start) (bfs_inv_init g start goal acc))
    as (s' & Hloop & Hexit); [apply Nat.le_add_r|].
  assert (HJ : parents_dequeued s').
  { apply (bfs_loop_parents _ _ _ parents_dequeued_init Hloop). }
  assert (HK : StronglySorted (closer g acc start) (App.Bfs.visited_order s')).
  { apply (bfs_loop_levels _ _ _ _ (bfs_inv_init g start goal acc)
             ltac:(constructor) Hloop). }
  unfold App._bfs. rewrite Hloop. cbn [bind].
  destruct Hexit as [d Hinv Hq | d s0 rest Hinv Hq ->].
  - destruct Hinv as [Hsplit Hnd Hhead Hkeys Htree Hsorted Hspan Hdone Hexp Hgoal Huniv Hstart].
    rewrite Hq, app_nil_r in *.
    rewrite reconstruct_absent
      by (apply Hkeys; intros Hc; now apply Hgoal, Hsplit).
    cbn [bind]. exists (App.Bfs.visited_order s'), [].
    split; [reflexivity|]. split; [|split; [constructor | split; [intros x [] | exact HK]]].
    intros x Hx. apply Hsplit in Hx.
    destruct (Htree x Hx) as (l & (_ & Hr & _) & _). now exists l.
  - destruct Hinv as [Hsplit Hnd Hhead Hkeys Htree Hsorted Hspan Hdone Hexp Hgoal Huniv Hstart].
    rewrite Hq in *.
    cbn [App.Bfs.parent App.Bfs.visited_order] in *.
    assert (HgV : In goal (App.Bfs.visited s0))
      by (apply Hsplit, in_or_app; right; now left).
    destruct (Htree goal HgV) as (l & (Hlin & Hroute & Hincl & Hndl) & Hlen).
    rewrite (reconstruct_lineage start _ goal l Hlin Hndl). cbn [bind].
    exists (App.Bfs.visited_order s0 ++ [goal]), l.
    split; [reflexivity|]. split; [|split; [exact Hndl | split; [|exact HK]]].
    + intros x Hx.
      assert (HxV : In x (App.Bfs.visited s0)).
      { apply Hsplit. apply in_app_iff in Hx as [Hx | [<- | []]];
          apply in_or_app; [now left | right; now left]. }
      destruct (Htree x HxV) as (lx & (_ & Hr & _) & _). now exists lx.
    + intros y Hy.
      destruct (lineage_parents _ _ _ Hlin y Hy) as [-> | [z Hz]].
      * apply in_or_app. right. now left.
      * now apply (HJ z y).
Qed.

Lemma dfs_outcome_more :
  exists order path,
    App._dfs g start goal acc = Ret (order, path)
    /\ (forall x, In x order -> reachable g acc start x)
    /\ NoDup path
    /\ incl path order.
Proof.
  destruct (dfs_rec_ok g start goal acc (App.fuel_of g) start
              (App.Dfs.init start) (dfs_inv_init g start goal acc)
              (fun _ => dfs_pre_init g start acc))
    as (s' & Hrun & Hinv & _); [apply Nat.le_add_r|].
  unfold App._dfs. rewrite Hrun. cbn [bind].
  destruct Hinv as [Hsame Hnd Hhead Htree Hfound Huniv].
  assert (Hreach : forall x, In x (App.Dfs.visited_order s') ->
                             reachable g acc start x).
  { intros x Hx. apply Hsame in Hx.
    destruct (Htree x Hx) as (l & _ & Hr & _). now exists l. }
  destruct (App.Dfs.found s') eqn:Hf.
  - destruct Hfound as [pre Hpre].
    assert (HgV : In goal (App.Dfs.visited s')).
    { apply Hsame. rewrite Hpre. apply in_or_app. right. now left. }
    destruct (Htree goal HgV) as (l & Hlin & Hroute & Hincl & Hndl).
    rewrite (reconstruct_lineage start _ goal l Hlin Hndl). cbn [bind].
    exists (App.Dfs.visited_order s'), l.
    split; [reflexivity|]. split; [exact Hreach|]. split; [exact Hndl|].
    intros y Hy. now apply Hsame, Hincl.
  - cbn [bind]. exists (App.Dfs.visited_order s'), [].
    split; [reflexivity|]. split; [exact Hreach|].
    split; [constructor | intros x []].
Qed.

End More.


(** X12. BFS explores level by level: in its visited order a node never
    comes before a node that is closer to [start], counted in edges. *)
Theorem bfs_level_order (g : Graph.t) (start goal : string) (acc : bool) :
  exists order path,
    App._bfs g start goal acc = Ret (order, path)
    /\ StronglySorted (closer g acc start) order.
Proof.
  destruct (bfs_outcome_more g start goal acc)
    as (o & p & Hrun & _ & _ & _ & H).
  exists o, p. auto.
Qed.

(** ** The sorted keys the handlers index *)

Lemma ltb_lt (a b : string) : String.ltb a b = true <-> String_as_OT.lt a b.
Proof.
  rewrite <- String_as_OT.cmp_lt. unfold String.ltb, String_as_OT.cmp.
  destruct (String.compare a b); split; congruence.
Qed.

Lemma ltb_trans (a b c : string) :
  String.ltb a b = true -> String.ltb b c = true -> String.ltb a c = true.
Proof.
  rewrite !ltb_lt. apply String_as_OT.lt_trans.
Qed.

Lemma key_ltb_irrefl (p : string * string) : App.key_ltb p p = false.
Proof.
  unfold App.key_ltb. now rewrite !ltb_irrefl, andb_false_r.
Qed.

Lemma key_ltb_trans (p q r : string * string) :
  App.key_ltb p q = true -> App.key_ltb q r = true -> App.key_ltb p r = true.
Proof.
  unfold App.key_ltb. destruct p as [a b], q as [c d], r as [e f]. cbn [fst snd].
  intros H1 H2. apply orb_true_iff in H1, H2. apply orb_true_iff.
  destruct H1 as [H1 | H1], H2 as [H2 | H2].
  - left. now apply ltb_trans with c.
  - apply andb_true_iff in H2 as [E _]. apply String.eqb_eq in E. subst. now left.
  - apply andb_true_iff in H1 as [E _]. apply String.eqb_eq in E. subst. now left.
  - apply andb_true_iff in H1 as [E1 L1]. apply andb_true_iff in H2 as [E2 L2].
    apply String.eqb_eq in E1, E2. subst. right.
    rewrite String.eqb_refl. cbn. now apply ltb_trans with d.
Qed.

Lemma key_ltb_connex (p q : string * string) :
  App.key_ltb p q = false -> App.key_ltb q p = false -> p = q.
Proof.
  unfold App.key_ltb. destruct p as [a b], q as [c d]. cbn [fst snd].
  intros H1 H2. apply orb_false_iff in H1 as [L1 R1], H2 as [L2 R2].
  pose proof (ltb_connex _ _ L1 L2) as ->.
  rewrite String.eqb_refl in R1, R2. cbn in R1, R2.
  now rewrite (ltb_connex _ _ R1 R2).
Qed.

Lemma insert_key_perm (k : string * string) (l : list (string * string)) :
  Permutation (k :: l) (App.insert_key k l).
Proof.
  induction l as [|k' l IH]; cbn; [reflexivity|].
  destruct (App.key_ltb k' k); [|reflexivity].
  rewrite perm_swap. now constructor.
Qed.

Lemma insert_key_sorted (k : string * string) (l : list (string * string)) :
  StronglySorted key_le l -> StronglySorted key_le (App.insert_key k l).
Proof.
  induction 1 as [|k' l Hs IH Hf]; cbn.
  - repeat constructor.
  - destruct (App.key_ltb k' k) eqn:E.
    + constructor; [exact IH|].
      apply Forall_forall. intros x Hx.
      apply (Permutation_in _ (Permutation_sym (insert_key_perm k l))) in Hx.
      destruct Hx as [<- | Hx].
      * unfold key_le. destruct (App.key_ltb k k') eqn:E'; [|reflexivity].
        pose proof (key_ltb_trans _ _ _ E E'). now rewrite key_ltb_irrefl in H.
      * rewrite Forall_forall in Hf. now apply Hf.
    + constructor; [now constructor|].
      constructor; [exact E|].
      rewrite Forall_forall in *. intros x Hx. specialize (Hf x Hx).
      unfold key_le in *. destruct (App.key_ltb x k) eqn:E'; [|reflexivity].
      destruct (App.key_ltb k k') eqn:E''.
      * pose proof (key_ltb_trans _ _ _ E' E''). congruence.
      * pose proof (key_ltb_connex _ _ E'' E) as ->. congruence.
Qed.

(** [sorted_keys] is the sorted arrangement of its argument. *)
Lemma sorted_keys_spec (l : list (string * string)) :
  Permutation l (App.sorted_keys l) /\ StronglySorted key_le (App.sorted_keys l).
Proof.
  induction l as [|k l [IHp IHs]]; cbn.
  - split; constructor.
  - split; [|now apply insert_key_sorted].
    rewrite <- insert_key_perm. now constructor.
Qed.

Lemma sorted_keys_in (l : list (string * string)) (k : string * string) :
  In k (App.sorted_keys l) <-> In k l.
Proof.
  destruct (sorted_keys_spec l) as [Hp _].
  split; apply Permutation_in; [now apply Permutation_sym | exact Hp].
Qed.

(** ** The toggles *)

Section Toggle.
Variable change : Edge.t -> Edge.t.
Hypothesis change_twice : forall e, change (change e) = e.
Hypothesis change_keeps :
  forall e, Edge.u (change e) = Edge.u e /\ Edge.v (change e) = Edge.v e
            /\ Edge.distance (change e) = Edge.distance e
            /\ Edge.time (change e) = Edge.time e.

Lemma toggle_cases (g : Graph.t) (sel : list nat) :
  App.toggle_selected change g sel = (Ret tt, g)
  \/ exists idx rest key e,
       sel = idx :: rest
       /\ nth_error (App.sorted_keys (Dict.keys (Graph.edges g))) idx = Some key
       /\ Dict.get (Graph.edges g) key = Some e
       /\ App.toggle_selected change g sel
          = (Ret tt,
             Graph.mk (Graph.nodes g) (Dict.set (Graph.edges g) key (change e))).
Proof.
  unfold App.toggle_selected. destruct sel as [|idx rest]; [now left|]. cbn zeta.
  destruct (nth_error _ idx) as [key|] eqn:Hk; [|now left].
  assert (Hin : In key (Dict.keys (Graph.edges g))).
  { apply sorted_keys_in. eapply nth_error_In. exact Hk. }
  apply (mem_true_iff (Graph.edges g) key) in Hin. unfold Dict.mem in Hin.
  destruct (Dict.get (Graph.edges g) key) as [e|] eqn:He; [|discriminate].
  right. exists idx, rest, key, e. auto.
Qed.

Lemma toggle_twice (g : Graph.t) (sel : list nat) :
  snd (App.toggle_selected change (snd (App.toggle_selected change g sel)) sel) = g.
Proof.
  destruct (toggle_cases g sel) as [E | (idx & rest & key & e & -> & Hk & He & E)].
  - rewrite E. cbn [snd]. now rewrite E.
  - rewrite E. cbn [snd]. unfold App.toggle_selected. cbn zeta.
    cbn [Graph.edges Graph.nodes].
    assert (Hm : Dict.mem key (Graph.edges g) = true)
      by (unfold Dict.mem; now rewrite He).
    rewrite (keys_set_present (Graph.edges g) key (change e) Hm), Hk.
    rewrite (get_set_same (Graph.edges g) key (change e)). cbn [snd].
    rewrite set_set, change_twice, (set_same (Graph.edges g) key e He).
    now destruct g.
Qed.

Lemma toggle_graph_ok (g : Graph.t) (sel : list nat) :
  graph_ok g -> graph_ok (snd (App.toggle_selected change g sel)).
Proof.
  intros Hok.
  destruct (toggle_cases g sel) as [E | (idx & rest & key & e & -> & Hk & He & E)];
    rewrite E; cbn [snd]; [exact Hok|].
  destruct Hok as (Hwn & Hwe & Hn & Hes).
  assert (Hm : Dict.mem key (Graph.edges g) = true)
    by (unfold Dict.mem; now rewrite He).
  split; [exact Hwn|]. split; [|split; [exact Hn|]]; cbn [Graph.nodes Graph.edges].
  - unfold Dict.wf. now rewrite (keys_set_present (Graph.edges g) key (change e) Hm).
  - clear Hk Hm Hwe E. revert He Hes.
    induction (Graph.edges g) as [|[k e0] es IH]; cbn [Dict.get Dict.set];
      [discriminate|].
    intros He Hes. inversion Hes as [|? ? H0 Hes']; subst.
    destruct (keqb_spec key k) as [-> | Hne].
    + injection He as ->. constructor; [|exact Hes'].
      destruct H0 as (H1 & H2 & H3 & H4 & H5 & H6). cbn [fst snd] in *.
      destruct (change_keeps e) as (Eu & Ev & Ed & Et).
      repeat split; cbn [fst snd]; auto.
      * unfold Edge.key in *. rewrite Eu, Ev. exact H2.
      * now rewrite Ed.
      * now rewrite Et.
    + constructor; [exact H0 | now apply IH].
Qed.

Hypothesis change_changes : forall e, change e <> e.

Lemma toggle_selected_spec (g : Graph.t) (sel : list nat) :
  toggle_spec (App.toggle_selected change) change g sel.
Proof.
  unfold toggle_spec. cbn zeta.
  split; [|split; [|split; [|split; [|split]]]].
  - destruct (toggle_cases g sel) as [E | (idx & rest & key & e & _ & _ & _ & E)];
      now rewrite E.
  - destruct (toggle_cases g sel) as [E | (idx & rest & key & e & _ & _ & _ & E)];
      now rewrite E.
  - destruct (toggle_cases g sel) as [E | (idx & rest & key & e & _ & _ & He & E)];
      rewrite E; cbn [snd Graph.edges]; [reflexivity|].
    apply keys_set_present. unfold Dict.mem. now rewrite He.
  - destruct (toggle_cases g sel)
      as [E | (idx & rest & key & e & -> & Hk & He & E)].
    + destruct sel as [|idx rest]; [now rewrite E|].
      destruct (nth_error _ idx) as [key|] eqn:Hk; [|now rewrite E].
      exfalso. revert E. unfold App.toggle_selected. cbn zeta. rewrite Hk.
      assert (Hin : In key (Dict.keys (Graph.edges g))).
      { apply sorted_keys_in. eapply nth_error_In. exact Hk. }
      apply (mem_true_iff (Graph.edges g) key) in Hin. unfold Dict.mem in Hin.
      destruct (Dict.get (Graph.edges g) key) as [e|] eqn:He; [|discriminate].
      intros [= Hg].
      assert (Hget : Dict.get (Graph.edges g) key = Some (change e)).
      { rewrite <- Hg at 1. cbn [Graph.edges]. apply get_set_same. }
      rewrite He in Hget. injection Hget as Hfix.
      now apply (change_changes e).
    + rewrite Hk, E. cbn [snd Graph.edges]. rewrite He. cbn.
      split; [apply get_set_same|].
      intros k Hne. now apply get_set_other.
  - apply toggle_twice.
  - apply toggle_graph_ok.
Qed.

End Toggle.

Lemma flip_closed_twice (e : Edge.t) : App.flip_closed (App.flip_closed e) = e.
Proof. destruct e. unfold App.flip_closed. cbn. now rewrite negb_involutive. Qed.

Lemma flip_accessible_twice (e : Edge.t) :
  App.flip_accessible (App.flip_accessible e) = e.
Proof. destruct e. unfold App.flip_accessible. cbn. now rewrite negb_involutive. Qed.



(** ** Steps of a path *)

Lemma chain_steps (R : string -> string -> Prop) (p : list string) :
  chain R p <-> forall x y, In (x, y) (App.steps_of p) -> R x y.
Proof.
  induction p as [|a [|b p] IH]; cbn [chain App.steps_of].
  - split; [intros _ x y [] | trivial].
  - split; [intros _ x y [] | trivial].
  - rewrite IH. split.
    + intros [Hab H] x y [[= <- <-] | Hin]; [exact Hab | now apply H].
    + intros H. split; [apply H; now left|].
      intros x y Hin. apply H. now right.
Qed.

Lemma steps_of_cons (a b : string) (p : list string) :
  App.steps_of (a :: b :: p) = (a, b) :: App.steps_of (b :: p).
Proof. reflexivity. Qed.

Lemma steps_of_length (p : list string) :
  List.length (App.steps_of p) = hops p.
Proof.
  unfold hops. induction p as [|a [|b p] IH]; try reflexivity.
  rewrite steps_of_cons. cbn [List.length] in *. rewrite IH. lia.
Qed.

Lemma steps_of_fst (p : list string) : map fst (App.steps_of p) = removelast p.
Proof.
  induction p as [|a [|b p] IH]; try reflexivity.
  rewrite steps_of_cons. cbn [map fst]. rewrite IH. reflexivity.
Qed.

Lemma steps_of_snd (p : list string) : map snd (App.steps_of p) = tl p.
Proof.
  induction p as [|a [|b p] IH]; try reflexivity.
  rewrite steps_of_cons. cbn [map snd tl] in *. now rewrite IH.
Qed.

Lemma path_edges_exist_chain (g : Graph.t) (acc : bool) (p : list string) :
  chain (traversable g acc) p -> App.path_edges_exist g p = true.
Proof.
  induction p as [|a [|b p] IH]; try reflexivity.
  intros [(e & He & _) Hc]. cbn [App.path_edges_exist]. rewrite He.
  now apply IH.
Qed.

Lemma route_animatable (g : Graph.t) (acc : bool) (start goal : string)
    (path : list string) :
  path = [] \/ route g acc start goal path ->
  animatable g acc start goal path.
Proof.
  intros Hp.
  assert (Hc : chain (traversable g acc) path).
  { destruct Hp as [-> | (_ & _ & Hc)]; [exact I | exact Hc]. }
  split; [now apply path_edges_exist_chain with (acc := acc)|].
  split; [apply steps_of_length|]. split; [apply steps_of_fst|].
  split; [apply steps_of_snd|]. split; [now apply chain_steps|].
  intros Hne Hsg. destruct Hp as [-> | (Hh & Hl & _)]; [congruence|].
  rewrite steps_of_fst, steps_of_snd.
  destruct path as [|a [|b p]]; [congruence | |].
  - cbn in Hh, Hl. congruence.
  - cbn in Hh. injection Hh as ->. split; [reflexivity|]. exact Hl.
Qed.

Lemma traversal_animatable (g : Graph.t) (start goal : string) (acc : bool) :
  (exists order path,
     App._bfs g start goal acc = Ret (order, path)
     /\ animatable g acc start goal path)
  /\ (exists order path,
        App._dfs g start goal acc = Ret (order, path)
        /\ animatable g acc start goal path).
Proof.
  split.
  - destruct (bfs_outcome g start goal acc)
      as (o & p & Hrun & _ & _ & _ & [(-> & _) | (Hp & _)]);
      exists o; eexists; (split; [exact Hrun|]); apply route_animatable; auto.
  - destruct (dfs_outcome g start goal acc)
      as (o & p & Hrun & _ & _ & _ & [(-> & _) | Hp]);
      exists o; eexists; (split; [exact Hrun|]); apply route_animatable; auto.
Qed.


(** ** Playing the animation *)

Lemma animate_step_ok (g : Graph.t) (s : App.anim) :
  graph_ok g ->
  App._animate_step g s
  = match nth_error (App.anim_steps s) (App.anim_index s) with
    | None =>
        (Ret false,
         App.mk_anim (App.anim_steps s) (App.anim_index s) (App.active_path s)
           false)
    | Some _ =>
        (Ret true,
         App.mk_anim (App.anim_steps s) (S (App.anim_index s))
           (App.active_path s) (App.animating s))
    end.
Proof.
  intros Hok. unfold App._animate_step.
  destruct (nth_error _ _) as [[a b]|]; [|reflexivity]. cbn zeta.
  destruct (Graph.get_edge g a b) as [e|] eqn:He; [|reflexivity].
  unfold Graph.get_edge in He. apply get_some_in in He.
  destruct Hok as (_ & _ & _ & Hes). rewrite Forall_forall in Hes.
  destruct (Hes _ He) as (_ & _ & H3 & H4 & _). cbn [fst snd] in H3, H4.
  unfold Dict.mem in H3, H4.
  destruct (sorted_pair_cases a b) as [E | E]; rewrite E in H3, H4; cbn [fst snd] in *;
    destruct (Dict.get (Graph.nodes g) a), (Dict.get (Graph.nodes g) b);
    try discriminate; reflexivity.
Qed.

Lemma playback_from (g : Graph.t) (steps : list (string * string))
    (path : list string) (b : bool) :
  graph_ok g ->
  forall k i,
    i + k = List.length steps ->
    App.playback (S k) g (App.mk_anim steps i path b)
    = (Ret tt, App.mk_anim steps (List.length steps) path false)
    /\ fst (App.playback k g (App.mk_anim steps i path b)) = OutOfFuel.
Proof.
  intros Hok. induction k as [|k IH]; intros i Hi.
  - split; [|reflexivity]. cbn [App.playback].
    rewrite (animate_step_ok g _ Hok). cbn [App.anim_steps App.anim_index].
    assert (E : nth_error steps i = None) by (apply nth_error_None; lia).
    rewrite E. cbn. f_equal. f_equal. lia.
  - assert (E : exists st, nth_error steps i = Some st).
    { destruct (nth_error steps i) eqn:E; [eauto|].
      apply nth_error_None in E. lia. }
    destruct E as [st E].
    destruct (IH (S i)) as [IH1 IH2]; [lia|].
    split.
    + cbn [App.playback]. rewrite (animate_step_ok g _ Hok).
      cbn [App.anim_steps App.anim_index App.active_path App.animating].
      rewrite E. exact IH1.
    + cbn [App.playback]. rewrite (animate_step_ok g _ Hok).
      cbn [App.anim_steps App.anim_index App.active_path App.animating].
      rewrite E. exact IH2.
Qed.

Lemma playback_short (g : Graph.t) (steps : list (string * string))
    (path : list string) (b : bool) :
  graph_ok g ->
  forall k i,
    i + k <= List.length steps ->
    fst (App.playback k g (App.mk_anim steps i path b)) = OutOfFuel.
Proof.
  intros Hok. induction k as [|k IH]; intros i Hi; [reflexivity|].
  cbn [App.playback]. rewrite (animate_step_ok g _ Hok).
  cbn [App.anim_steps App.anim_index App.active_path App.animating].
  destruct (nth_error steps i) eqn:E.
  - apply IH. lia.
  - apply nth_error_None in E. lia.
Qed.

(** X15. Playing an animation.  On a model that satisfies the invariant
    [_animate_step] never raises, whatever the steps are; started on a
    path, the chain of timer calls shows each step once, in order, and ends
    at the call after the last step, with [animating] reset and
    [anim_index] at the number of steps: it takes one call more than
    there are steps, and no fewer. *)
Theorem playback_runs_through (g : Graph.t) (path : list string) :
  graph_ok g ->
  let n := List.length (App.steps_of path) in
  (forall s, exists b s', App._animate_step g s = (Ret b, s'))
  /\ App.playback (S n) g (App.start_animation path)
     = (Ret tt, App.mk_anim (App.steps_of path) n path false)
  /\ (forall k, k <= n ->
        fst (App.playback k g (App.start_animation path)) = OutOfFuel).
Proof.
  intros Hok n. split; [|split].
  - intros s. rewrite (animate_step_ok g s Hok).
    destruct (nth_error _ _); eauto.
  - apply (playback_from g (App.steps_of path) path true Hok n 0). reflexivity.
  - intros k Hk. unfold App.start_animation.
    apply (playback_short g (App.steps_of path) path true Hok k 0). exact Hk.
Qed.

(** ** Closing an edge, and marking it not accessible *)

Lemma no_step_across (g : Graph.t) (acc : bool) (a b : string) :
  ~ traversable g acc a b ->
  forall start goal,
    (exists order path,
       App._bfs g start goal acc = Ret (order, path)
       /\ ~ In (a, b) (App.steps_of path) /\ ~ In (b, a) (App.steps_of path))
    /\ (exists order path,
          App._dfs g start goal acc = Ret (order, path)
          /\ ~ In (a, b) (App.steps_of path) /\ ~ In (b, a) (App.steps_of path)).
Proof.
  intros Hn start goal.
  assert (Hn' : ~ traversable g acc b a)
    by (intros H; now apply Hn, traversable_sym).
  destruct (traversal_animatable g start goal acc)
    as [(o & p & Hrun & _ & _ & _ & _ & Hs & _) (o' & p' & Hrun' & _ & _ & _ & _ & Hs' & _)].
  split; [exists o, p | exists o', p']; (split; [assumption|]);
    split; intros Hin; [apply Hn | apply Hn' | apply Hn | apply Hn'];
    first [now apply Hs | now apply Hs'].
Qed.

Section Blocks.
Variables (g : Graph.t) (idx : nat) (rest : list nat) (a b : string)
  (e : Edge.t).
Hypothesis Hok : graph_ok g.
Hypothesis Hidx :
  nth_error (App.sorted_keys (Dict.keys (Graph.edges g))) idx = Some (a, b).
Hypothesis Hget : Dict.get (Graph.edges g) (a, b) = Some e.

Lemma selected_key_sorted : sorted_pair a b = (a, b).
Proof.
  apply sorted_pair_of_ordered.
  apply (edge_key_ordered g a b e Hok). now apply get_some_in.
Qed.

Lemma toggled_get_edge (change : Edge.t -> Edge.t) :
  (forall e0, change (change e0) = e0) ->
  (forall e0, Edge.u (change e0) = Edge.u e0 /\ Edge.v (change e0) = Edge.v e0
              /\ Edge.distance (change e0) = Edge.distance e0
              /\ Edge.time (change e0) = Edge.time e0) ->
  (forall e0, change e0 <> e0) ->
  let g' := snd (App.toggle_selected change g (idx :: rest)) in
  graph_ok g'
  /\ Graph.get_edge g' a b = Some (change e)
  /\ forall x y, sorted_pair x y <> (a, b) ->
       Graph.get_edge g' x y = Graph.get_edge g x y.
Proof.
  intros H1 H2 H3 g'.
  destruct (toggle_selected_spec change H1 H2 H3 g (idx :: rest))
    as (_ & _ & _ & Hsel & _ & Hok').
  cbn zeta in Hsel. rewrite Hidx in Hsel. destruct Hsel as [Hkey Hother].
  split; [now apply Hok'|]. split.
  - unfold Graph.get_edge. rewrite selected_key_sorted.
    fold g'. unfold g'. rewrite Hkey, Hget. reflexivity.
  - intros x y Hxy. unfold Graph.get_edge. now apply Hother.
Qed.

End Blocks.





Lemma playback_runs_through_witness :
  App.playback 3 fixture (App.start_animation ["A"; "C"; "D"])
  = (Ret tt, App.mk_anim [("A", "C"); ("C", "D")] 2 ["A"; "C"; "D"] false).
Proof.
  exact (proj1 (proj2 (playback_runs_through fixture ["A"; "C"; "D"] fixture_ok))).
Defined.

(** ** Comparing traversals *)

Lemma empty_path_unreachable (g : Graph.t) (start goal : string) (acc : bool)
    (order : list string) :
  App._bfs g start goal acc = Ret (order, []) -> ~ reachable g acc start goal.
Proof.
  intros Hrun [p Hp].
  destruct (bfs_outcome g start goal acc)
    as (o & p' & Hrun' & _ & _ & _ & [(_ & Hno & _) | (Hp' & _)]).
  - apply Hno. now exists p.
  - rewrite Hrun in Hrun'. injection Hrun' as _ <-.
    destruct Hp' as [Hh _]. discriminate.
Qed.



Lemma chain_mono (R R' : string -> string -> Prop) (p : list string) :
  (forall x y, R x y -> R' x y) -> chain R p -> chain R' p.
Proof.
  intros H. induction p as [|a [|b p] IH]; cbn [chain]; try trivial.
  intros [Hab Hc]. split; [now apply H | now apply IH].
Qed.

Lemma route_mono (g1 g2 : Graph.t) (acc1 acc2 : bool) (s t : string)
    (p : list string) :
  (forall x y, traversable g1 acc1 x y -> traversable g2 acc2 x y) ->
  route g1 acc1 s t p -> route g2 acc2 s t p.
Proof.
  intros H (Hh & Hl & Hc). repeat split; try assumption.
  now apply chain_mono with (R := traversable g1 acc1).
Qed.

(** More traversable edges, no longer shortest path. *)
Lemma bfs_mono (g1 g2 : Graph.t) (acc1 acc2 : bool) (s t : string) :
  (forall x y, traversable g1 acc1 x y -> traversable g2 acc2 x y) ->
  reachable g1 acc1 s t ->
  exists o1 p1 o2 p2,
    App._bfs g1 s t acc1 = Ret (o1, p1)
    /\ App._bfs g2 s t acc2 = Ret (o2, p2)
    /\ route g1 acc1 s t p1
    /\ route g2 acc2 s t p2
    /\ hops p2 <= hops p1.
Proof.
  intros Hsub Hr.
  destruct (bfs_outcome g1 s t acc1)
    as (o1 & p1 & Hrun1 & _ & _ & _ & [(_ & Hno & _) | (Hp1 & _)]);
    [contradiction|].
  pose proof (route_mono _ _ _ _ _ _ _ Hsub Hp1) as Hp1'.
  destruct (bfs_outcome g2 s t acc2)
    as (o2 & p2 & Hrun2 & _ & _ & _ & [(_ & Hno & _) | (Hp2 & Hmin)]);
    [exfalso; apply Hno; now exists p1|].
  exists o1, p1, o2, p2. do 4 (split; [assumption|]).
  specialize (Hmin p1 Hp1'). unfold hops. lia.
Qed.

(** X19. The price of the accessible-only filter: whatever is reachable
    over accessible edges is reachable over all edges, and the path BFS
    finds over all edges has no more edges than the one it finds over
    accessible edges only. *)
Theorem accessible_only_no_shorter (g : Graph.t) (s t : string) :
  reachable g true s t ->
  reachable g false s t
  /\ exists o1 p1 o2 p2,
       App._bfs g s t true = Ret (o1, p1)
       /\ App._bfs g s t false = Ret (o2, p2)
       /\ route g true s t p1
       /\ route g false s t p2
       /\ hops p2 <= hops p1.
Proof.
  intros Hr.
  assert (Hsub : forall x y, traversable g true x y -> traversable g false x y).
  { intros x y (e & He & Hc & _). exists e. repeat split; [exact He | exact Hc|].
    discriminate. }
  split; [|now apply bfs_mono].
  destruct Hr as [p Hp]. exists p. now apply route_mono with (g1 := g) (acc1 := true).
Qed.

Lemma accessible_only_no_shorter_witness :
  reachable fixture false "A" "C"
  /\ exists o1 p1 o2 p2,
       App._bfs fixture "A" "C" true = Ret (o1, p1)
       /\ App._bfs fixture "A" "C" false = Ret (o2, p2)
       /\ route fixture true "A" "C" p1
       /\ route fixture false "A" "C" p2
       /\ hops p2 <= hops p1.
Proof.
  apply (accessible_only_no_shorter fixture "A" "C").
  exists ["A"; "C"]. split; [reflexivity|]. split; [reflexivity|].
  repeat split.
  eexists; split; [vm_compute; reflexivity | split; reflexivity].
Defined.

(** ** Traversals after a change of the model *)

Lemma add_edge_keeps_traversable (g g' : Graph.t) (u v : string)
    (d t : float) (a : bool) (r : unit) :
  Graph.add_edge g u v d t a = (Ret r, g') ->
  (forall acc x y, traversable g acc x y -> traversable g' acc x y)
  /\ Graph.get_edge g' u v = Some (Edge.mk u v d t a false None None).
Proof.
  intros E.
  pose proof (add_edge_ret_inv _ _ _ _ _ _ _ _ E) as (Huv & Hu & Hv & Hk & Hd & Ht).
  rewrite (add_edge_success g u v d t a Huv Hu Hv Hk Hd Ht) in E.
  injection E as _ <-. split.
  - intros acc x y (e & He & Hp). exists e. split; [|exact Hp].
    unfold Graph.get_edge in *. cbn [Graph.edges]. rewrite get_app. now rewrite He.
  - unfold Graph.get_edge. cbn [Graph.edges]. rewrite get_app.
    apply mem_false_iff in Hk. rewrite Hk. cbn [Dict.get]. now rewrite keqb_refl.
Qed.

(** X20. Adding a pathway.  After a successful [add_edge(u, v, ...)] every
    path that existed still exists, so for any two nodes that were
    connected BFS returns a path with no more edges than before; and
    between [u] and [v] themselves BFS returns the one-edge path [u, v],
    unless only accessible edges are wanted and the new edge is not. *)
Theorem add_edge_shortens (g g' : Graph.t) (u v : string) (d t : float)
    (a : bool) (r : unit) :
  Graph.add_edge g u v d t a = (Ret r, g') ->
  (forall acc s t',
     reachable g acc s t' ->
     exists o1 p1 o2 p2,
       App._bfs g s t' acc = Ret (o1, p1)
       /\ App._bfs g' s t' acc = Ret (o2, p2)
       /\ route g acc s t' p1
       /\ route g' acc s t' p2
       /\ hops p2 <= hops p1)
  /\ (forall acc, acc = false \/ a = true ->
        exists order, App._bfs g' u v acc = Ret (order, [u; v])).
Proof.
  intros E.
  destruct (add_edge_keeps_traversable _ _ _ _ _ _ _ _ E) as [Hsub Hnew].
  split.
  - intros acc s t' Hr. apply bfs_mono; [apply Hsub | exact Hr].
  - intros acc Hacc.
    assert (Huv : u <> v) by now apply (add_edge_ret_inv _ _ _ _ _ _ _ _ E).
    assert (Hroute : route g' acc u v [u; v]).
    { split; [reflexivity|]. split; [reflexivity|]. split; [|exact I].
      eexists. split; [exact Hnew|]. split; [reflexivity|].
      intros ->. cbn. destruct Hacc; congruence. }
    destruct (bfs_outcome g' u v acc)
      as (o & p & Hrun & _ & _ & _ & [(_ & Hno & _) | (Hp & Hmin)]);
      [exfalso; apply Hno; now exists [u; v]|].
    exists o. rewrite Hrun. do 2 f_equal.
    specialize (Hmin _ Hroute). cbn in Hmin.
    destruct Hp as (Hh & Hl & _).
    destruct p as [|x [|y [|z p]]]; cbn in Hh, Hl, Hmin; try lia; try discriminate.
    + injection Hh as ->. congruence.
    + injection Hh as ->. now subst y.
Qed.

Lemma add_edge_shortens_witness :
  exists order,
    App._bfs (snd (Graph.add_edge fixture "A" "D" 7 2 true)) "A" "D" true
    = Ret (order, ["A"; "D"]).
Proof.
  assert (E : Graph.add_edge fixture "A" "D" 7 2 true
              = (Ret tt, snd (Graph.add_edge fixture "A" "D" 7 2 true)))
    by (vm_compute; reflexivity).
  destruct (add_edge_shortens _ _ _ _ _ _ _ _ E) as [_ H].
  apply H. now right.
Defined.


